(** * Lc0 neural backend wrapper and instamove searches

    A shallow embedding of [src/neural/wrapper.cc] (the adapter that turns a
    raw [Network] into a batched [Backend]) and of the instamove search
    strategies ([PolicyHeadSearch], [ValueHeadSearch]), together with the
    properties of their specification.

    Conventions of the embedding:
    - C++ [float]/[double] values are exact rationals ([Q]); rounding,
      infinities and NaN are outside the model.  The one infinity the code
      writes down (the seed of the running maximum in [SoftmaxPolicy]) is
      kept as [None] in an [option Q] accumulator.
    - Undefined behaviour and aborts (out-of-range indexing, a failed
      [assert], overflowing the entry store) are [None] in an [option] result.
    - External collaborators (chess rules, position encoder, network, libm)
      are interfaces: type classes or records of functions. *)

From Stdlib Require Import ZArith QArith Qround Lia Lqa.
From stdpp Require Import base option list strings functions relations.

Local Open Scope Q_scope.

(** ** Floating point helpers *)

Module Float.

(** [a < b] on floats, as a boolean. *)
Definition ltb (a b : Q) : bool := negb (Qle_bool b a).

(** [std::max(a, b)]: returns [b] when [a < b], otherwise [a]. *)
Definition std_max (a b : Q) : Q := if ltb a b then b else a.

(** [std::round]: nearest integer, halfway cases away from zero. *)
Definition round (x : Q) : Z :=
  if Qle_bool 0 x then Qfloor (x + (1 # 2)) else (- Qfloor (- x + (1 # 2)))%Z.

(** Conversion of a floating value to [int]: truncation toward zero. *)
Definition trunc (x : Q) : Z := Z.quot (Qnum x) (Z.pos (Qden x)).

(** [static_cast<int>(std::round(x))]. *)
Definition to_int (x : Q) : Z := round x.

End Float.

(** ** External collaborators *)

(** Terminal classification of a position history. *)
Inductive GameResult := UNDECIDED | BLACK_WON | DRAW | WHITE_WON.

(** The board and move capability ([chess/]): consumed as an interface. *)
Class Chess := {
  Move : Type;
  Position : Type;
  GameState : Type;
  PositionHistory : Type;
  (** [Move{}], the value-initialised move. *)
  Move_default : Move;
  Flip : Move → Move;
  is_null : Move → bool;
  IsBlackToMove : Position → bool;
  (** [position.GetBoard().GenerateLegalMoves()]. *)
  GenerateLegalMoves : Position → list Move;
  (** [GameState::GetPositions] and [GameState::CurrentPosition]. *)
  GetPositions : GameState → list Position;
  CurrentPosition : GameState → Position;
  (** [PositionHistory]: construction from positions, [Last], [Append],
      [Pop], [GetPositions], [ComputeGameResult]. *)
  History_new : list Position → PositionHistory;
  History_Last : PositionHistory → Position;
  History_Append : PositionHistory → Move → PositionHistory;
  History_Pop : PositionHistory → PositionHistory;
  History_GetPositions : PositionHistory → list Position;
  ComputeGameResult : PositionHistory → GameResult;
}.

Inductive FillEmptyHistory := NO | FEN_ONLY | ALWAYS.

(** The position encoder ([neural/encoder.h]). *)
Class Encoder `{Chess} := {
  InputPlanes : Type;
  InputFormat : Type;
  (** [EncodePositionForNN(format, history, history_planes, fill, &transform)]
      returns the planes together with the transform it stored. *)
  EncodePositionForNN :
    InputFormat → list Position → Z → FillEmptyHistory → InputPlanes * Z;
  (** [MoveToNNIndex(move, transform)]. *)
  MoveToNNIndex : Move → Z → nat;
}.

(** [utils/fastmath.h] and [<cmath>]. *)
Class FastMath := { FastExp : Q → Q }.
Class CMath := { tan : Q → Q }.

(** ** Configuration *)

(** The four keys of [SharedBackendParams] that the wrapper reads. *)
Record OptionsDict := {
  kBackendOptionsId : string;
  kWeightsId : string;
  kPolicySoftmaxTemp : Q;
  kHistoryFill : string;
}.

Inductive UpdateConfigurationResult := UPDATE_OK | NEED_RESTART.
Inductive AddInputResult := ENQUEUED_FOR_EVAL | FETCHED_IMMEDIATELY.

Record BackendAttributes := {
  has_mlh : bool;
  has_wdl : bool;
  runs_on_cpu : bool;
  suggested_num_search_threads : Z;
  recommended_batch_size : Z;
  maximum_batch_size : Z;
}.

(** [assert(c)]: aborts when [c] is false, unless the build defines
    [NDEBUG], in which case it is no statement at all. *)
Definition assert (ndebug : bool) (c : bool) : option unit :=
  if ndebug then Some tt else if c then Some tt else None.

Definition EncodeHistoryFill (ndebug : bool) (history_fill : string)
  : option FillEmptyHistory :=
  if String.eqb history_fill "fen_only" then Some FEN_ONLY
  else if String.eqb history_fill "always" then Some ALWAYS
  else _ ← assert ndebug (String.eqb history_fill "no"); Some NO.

(** The three values the history-fill option recognises. *)
Definition recognised_history_fill (s : string) : bool :=
  String.eqb s "fen_only" || String.eqb s "always" || String.eqb s "no".

Section Wrapper.
Context `{!Chess, !Encoder, !FastMath}.

Record NetworkCapabilities := {
  caps_has_mlh : bool;
  caps_has_wdl : bool;
  caps_input_format : InputFormat;
}.

(** The [Network] interface.  A network computation is determined by the
    batch of inputs submitted to it: the four output getters are functions
    of that batch and of the index into it. *)
Record Network := {
  GetCapabilities : NetworkCapabilities;
  IsCpu : bool;
  GetThreads : Z;
  GetMiniBatchSize : Z;
  GetQVal : list InputPlanes → nat → Q;
  GetDVal : list InputPlanes → nat → Q;
  GetMVal : list InputPlanes → nat → Q;
  GetPVal : list InputPlanes → nat → nat → Q;
}.

Record NetworkAsBackend := {
  network_ : Network;
  attrs_ : BackendAttributes;
  input_format_ : InputFormat;
  softmax_policy_temperature_ : Q;
  fill_empty_history_ : FillEmptyHistory;
  backend_opts_ : string;
  weights_path_ : string;
}.

Definition set_softmax_policy_temperature_ (t : Q) (b : NetworkAsBackend) :=
  {| network_ := network_ b; attrs_ := attrs_ b;
     input_format_ := input_format_ b;
     softmax_policy_temperature_ := t;
     fill_empty_history_ := fill_empty_history_ b;
     backend_opts_ := backend_opts_ b; weights_path_ := weights_path_ b |}.

Definition set_fill_empty_history_ (f : FillEmptyHistory)
    (b : NetworkAsBackend) :=
  {| network_ := network_ b; attrs_ := attrs_ b;
     input_format_ := input_format_ b;
     softmax_policy_temperature_ := softmax_policy_temperature_ b;
     fill_empty_history_ := f;
     backend_opts_ := backend_opts_ b; weights_path_ := weights_path_ b |}.

Definition set_attrs_ (a : BackendAttributes) (b : NetworkAsBackend) :=
  {| network_ := network_ b; attrs_ := a;
     input_format_ := input_format_ b;
     softmax_policy_temperature_ := softmax_policy_temperature_ b;
     fill_empty_history_ := fill_empty_history_ b;
     backend_opts_ := backend_opts_ b; weights_path_ := weights_path_ b |}.

Definition set_input_format_ (f : InputFormat) (b : NetworkAsBackend) :=
  {| network_ := network_ b; attrs_ := attrs_ b;
     input_format_ := f;
     softmax_policy_temperature_ := softmax_policy_temperature_ b;
     fill_empty_history_ := fill_empty_history_ b;
     backend_opts_ := backend_opts_ b; weights_path_ := weights_path_ b |}.

(** [NetworkAsBackend::UpdateConfiguration].  The call to the base class
    [Backend::UpdateConfiguration] has its result discarded and touches
    none of the fields of this class. *)
Definition UpdateConfiguration (ndebug : bool) (this : NetworkAsBackend)
    (options : OptionsDict)
  : option (NetworkAsBackend * UpdateConfigurationResult) :=
  if negb (String.eqb (backend_opts_ this) (kBackendOptionsId options))
  then Some (this, NEED_RESTART)
  else if negb (String.eqb (weights_path_ this) (kWeightsId options))
  then Some (this, NEED_RESTART)
  else
    let this :=
      set_softmax_policy_temperature_ (1 / kPolicySoftmaxTemp options) this in
    fill ← EncodeHistoryFill ndebug (kHistoryFill options);
    Some (set_fill_empty_history_ fill this, UPDATE_OK).

(** The options name another network than the one the backend holds. *)
Definition identity_changed (this : NetworkAsBackend)
    (options : OptionsDict) : Prop :=
  backend_opts_ this ≠ kBackendOptionsId options ∨
  weights_path_ this ≠ kWeightsId options.

(** The backend after an in-place update to [options] with fill mode
    [fill]. *)
Definition reconfigured (this : NetworkAsBackend) (options : OptionsDict)
    (fill : FillEmptyHistory) : NetworkAsBackend :=
  set_fill_empty_history_ fill
    (set_softmax_policy_temperature_ (1 / kPolicySoftmaxTemp options) this).

(** What the constructor reads off the network. *)
Definition network_attributes (n : Network) : BackendAttributes :=
  {| has_mlh := caps_has_mlh (GetCapabilities n);
     has_wdl := caps_has_wdl (GetCapabilities n);
     runs_on_cpu := IsCpu n;
     suggested_num_search_threads := GetThreads n;
     recommended_batch_size := GetMiniBatchSize n;
     maximum_batch_size := 1024 |}.

(** The constructor.  [storage] is the object's memory before
    construction: the members without an initialiser ([attrs_],
    [input_format_], the temperature and the fill mode) start from
    whatever it holds. *)
Definition NetworkAsBackend_new (ndebug : bool) (storage : NetworkAsBackend)
    (network : Network) (options : OptionsDict) : option NetworkAsBackend :=
  let this :=
    {| network_ := network; attrs_ := attrs_ storage;
       input_format_ := input_format_ storage;
       softmax_policy_temperature_ := softmax_policy_temperature_ storage;
       fill_empty_history_ := fill_empty_history_ storage;
       backend_opts_ := kBackendOptionsId options;
       weights_path_ := kWeightsId options |} in
  '(this, _) ← UpdateConfiguration ndebug this options;
  let caps := GetCapabilities (network_ this) in
  let this :=
    set_attrs_
      {| has_mlh := caps_has_mlh caps;
         has_wdl := caps_has_wdl caps;
         runs_on_cpu := IsCpu (network_ this);
         suggested_num_search_threads := GetThreads (network_ this);
         recommended_batch_size := GetMiniBatchSize (network_ this);
         maximum_batch_size := 1024 |} this in
  Some (set_input_format_ (caps_input_format caps) this).

Definition GetAttributes (this : NetworkAsBackend) : BackendAttributes :=
  attrs_ this.

End Wrapper.

(** ** Evaluation requests *)

Section Requests.
Context `{!Chess}.

(** A position history and the legal moves of its last position. *)
Record EvalPosition := {
  pos : list Position;
  legal_moves : list Move;
}.

(** Caller-owned output slots.  [Loc] is the type of addresses of [float]
    objects in the caller's memory; a null pointer is [None] and the span
    [p] is the list of the addresses of its elements. *)
Record EvalResultPtr (Loc : Type) := {
  q : option Loc;
  d : option Loc;
  m : option Loc;
  p : list Loc;
}.

(** What [Backend::EvaluateBatch] returns for one position. *)
Record EvalResult := {
  res_q : Q;
  res_d : Q;
  res_m : Q;
  res_p : list Q;
}.

End Requests.

Arguments q {Loc} _.
Arguments d {Loc} _.
Arguments m {Loc} _.
Arguments p {Loc} _.
Arguments Build_EvalResultPtr {Loc} _ _ _ _.

(** ** The batch entry store *)

(** [AtomicVector<T>]: a store of fixed capacity with an append cursor. *)
Record AtomicVector (T : Type) := {
  capacity : nat;
  items : list T;
}.
Arguments capacity {T} _.
Arguments items {T} _.
Arguments Build_AtomicVector {T} _ _.

Definition AtomicVector_new {T} (capacity : nat) : AtomicVector T :=
  {| capacity := capacity; items := [] |}.

Definition size {T} (v : AtomicVector T) : nat := length (items v).

(** [emplace_back] claims the next index and constructs the element there;
    appending to a full store is a fatal error. *)
Definition emplace_back {T} (v : AtomicVector T) (x : T)
  : option (nat * AtomicVector T) :=
  if decide (size v < capacity v)%nat
  then Some (size v, {| capacity := capacity v; items := items v ++ [x] |})
  else None.

(** [v[i] = f(v[i])], in place. *)
Definition update_at {T} (v : AtomicVector T) (i : nat) (f : T → T)
  : option (AtomicVector T) :=
  x ← items v !! i;
  Some {| capacity := capacity v; items := <[i := f x]> (items v) |}.

(** ** The backend computation *)

Inductive Slot := SlotQ | SlotD | SlotM | SlotP.

#[export] Instance Slot_eq_dec : EqDecision Slot.
Proof. solve_decision. Defined.

(** The caller's memory, as far as [float] objects go: the value at each
    address. *)
Abbreviation Heap Loc := (Loc → Q) (only parsing).

Section Computation.
Context `{!Chess, !Encoder, !FastMath}.
Context {Loc : Type} `{!EqDecision Loc}.

Record Entry := {
  input : InputPlanes;
  entry_legal_moves : list Move;
  result : EvalResultPtr Loc;
  transform : Z;
}.

Definition set_transform (t : Z) (e : Entry) : Entry :=
  {| input := input e; entry_legal_moves := entry_legal_moves e;
     result := result e; transform := t |}.

(** [computation_] is the network computation, that is the batch of planes
    submitted to it so far.  [backend_] is a pointer: the methods below
    take the backend it points to as an argument. *)
Record NetworkAsBackendComputation := {
  computation_ : list InputPlanes;
  entries_ : AtomicVector Entry;
}.

Definition CreateComputation (backend : NetworkAsBackend)
  : NetworkAsBackendComputation :=
  {| computation_ := [];
     entries_ :=
       AtomicVector_new (Z.to_nat (maximum_batch_size (attrs_ backend))) |}.

Definition UsedBatchSize (this : NetworkAsBackendComputation) : nat :=
  size (entries_ this).

Definition AddInput (backend : NetworkAsBackend)
    (this : NetworkAsBackendComputation)
    (position : EvalPosition) (result : EvalResultPtr Loc)
  : option (NetworkAsBackendComputation * AddInputResult) :=
  let '(planes, transform) :=
    EncodePositionForNN (input_format_ backend) (pos position) 8
                        (fill_empty_history_ backend) in
  '(idx, entries) ←
    emplace_back (entries_ this)
      {| input := planes; entry_legal_moves := legal_moves position;
         result := result; transform := 0 |};
  entries ← update_at entries idx (set_transform transform);
  Some ({| computation_ := computation_ this; entries_ := entries |},
        ENQUEUED_FOR_EVAL).

(** The running maximum starts at minus infinity, written [None]. *)
Definition max_from (max_p : option Q) (v : Q) : Q :=
  match max_p with
  | None => v
  | Some a => Float.std_max a v
  end.

(** First pass of [SoftmaxPolicy]: copies the raw policy value of each
    legal move to [dst[counter++]] and keeps the maximum. *)
Fixpoint copy_raw (network : Network) (batch : list InputPlanes)
    (idx : nat) (transform : Z) (dst : list Loc)
    (moves : list Move) (counter : nat) (max_p : option Q) (h : Heap Loc)
  : option (option Q * Heap Loc) :=
  match moves with
  | [] => Some (max_p, h)
  | move :: moves =>
      l ← dst !! counter;
      let v := GetPVal network batch idx (MoveToNNIndex move transform) in
      copy_raw network batch idx transform dst moves (S counter)
               (Some (max_from max_p v)) (<[l := v]> h)
  end.

(** Second pass: every element of [dst] becomes
    [FastExp((val - max_p) * temperature)]; the results are summed. *)
Fixpoint exp_total (max_p temperature : Q) (dst : list Loc)
    (total : Q) (h : Heap Loc) : Q * Heap Loc :=
  match dst with
  | [] => (total, h)
  | l :: dst =>
      let val := FastExp ((h l - max_p) * temperature) in
      exp_total max_p temperature dst (total + val) (<[l := val]> h)
  end.

(** Third pass: every element of [dst] is multiplied by [scale]. *)
Fixpoint scale_all (scale : Q) (dst : list Loc) (h : Heap Loc)
  : Heap Loc :=
  match dst with
  | [] => h
  | l :: dst => scale_all scale dst (<[l := h l * scale]> h)
  end.

(** [NetworkAsBackendComputation::SoftmaxPolicy].  With no legal move the
    maximum stays at minus infinity; subtracting it from an element of a
    non-empty [dst] leaves the rationals, which is [None] here. *)
Definition SoftmaxPolicy (backend : NetworkAsBackend)
    (this : NetworkAsBackendComputation)
    (dst : list Loc) (computation : list InputPlanes) (idx : nat)
    (h : Heap Loc) : option (Heap Loc) :=
  e ← items (entries_ this) !! idx;
  let moves := entry_legal_moves e in
  let transform := transform e in
  '(max_p, h) ←
    copy_raw (network_ backend) computation idx transform dst moves 0 None h;
  let temperature := softmax_policy_temperature_ backend in
  '(total, h) ←
    match dst, max_p with
    | [], _ => Some (0, h)
    | _ :: _, None => None
    | _ :: _, Some max_p => Some (exp_total max_p temperature dst 0 h)
    end;
  let scale := if Float.ltb 0 total then 1 / total else 1 in
  Some (scale_all scale dst h).

(** One store through a caller's slot, as recorded in the write log:
    the entry it belongs to, the slot, the addresses and the values. *)
Record WriteEvent := {
  w_entry : nat;
  w_slot : Slot;
  w_locs : list Loc;
  w_vals : list Q;
}.

(** [if (ptr) *ptr = v;] *)
Definition store_if (i : nat) (s : Slot) (ptr : option Loc) (v : Q)
    (st : Heap Loc * list WriteEvent) : Heap Loc * list WriteEvent :=
  match ptr with
  | None => st
  | Some l =>
      (<[l := v]> (fst st),
       snd st ++ [{| w_entry := i; w_slot := s;
                     w_locs := [l]; w_vals := [v] |}])
  end.

(** The body of the result loop of [ComputeBlocking] for index [i]. *)
Definition distribute (backend : NetworkAsBackend)
    (this : NetworkAsBackendComputation) (computation : list InputPlanes)
    (i : nat) (st : Heap Loc * list WriteEvent)
  : option (Heap Loc * list WriteEvent) :=
  e ← items (entries_ this) !! i;
  let result := result e in
  let network := network_ backend in
  let st := store_if i SlotQ (q result) (GetQVal network computation i) st in
  let st := store_if i SlotD (d result) (GetDVal network computation i) st in
  let st := store_if i SlotM (m result) (GetMVal network computation i) st in
  match p result with
  | [] => Some st
  | dst =>
      h ← SoftmaxPolicy backend this dst computation i (fst st);
      Some (h, snd st ++ [{| w_entry := i; w_slot := SlotP;
                             w_locs := dst; w_vals := h <$> dst |}])
  end.

Fixpoint distribute_loop (backend : NetworkAsBackend)
    (this : NetworkAsBackendComputation) (computation : list InputPlanes)
    (indices : list nat) (st : Heap Loc * list WriteEvent)
  : option (Heap Loc * list WriteEvent) :=
  match indices with
  | [] => Some st
  | i :: indices =>
      st ← distribute backend this computation i st;
      distribute_loop backend this computation indices st
  end.

(** [NetworkAsBackendComputation::ComputeBlocking]: submits the planes of
    every entry to the network computation, runs it, and distributes the
    outputs.  Returns the computation, the caller's memory and the log of
    the stores made through the result slots. *)
Definition ComputeBlocking (backend : NetworkAsBackend)
    (this : NetworkAsBackendComputation) (h : Heap Loc)
  : option (NetworkAsBackendComputation * Heap Loc * list WriteEvent) :=
  let computation :=
    foldl (λ c entry, c ++ [input entry])
          (computation_ this) (items (entries_ this)) in
  let this :=
    {| computation_ := computation; entries_ := entries_ this |} in
  '(h, log) ←
    distribute_loop backend this computation
                    (seq 0 (size (entries_ this))) (h, []);
  Some (this, h, log).

(** Enqueueing a list of requests, one [AddInput] each. *)
Fixpoint AddInputs (backend : NetworkAsBackend)
    (this : NetworkAsBackendComputation)
    (requests : list (EvalPosition * EvalResultPtr Loc))
  : option NetworkAsBackendComputation :=
  match requests with
  | [] => Some this
  | (position, result) :: requests =>
      '(this, _) ← AddInput backend this position result;
      AddInputs backend this requests
  end.

End Computation.

Arguments Entry {_ _} Loc.
Arguments WriteEvent : clear implicits.
Arguments NetworkAsBackendComputation {_ _} Loc.

(** ** The backend interface seen by the searches *)

(** [Backend] and [BackendComputation], as far as the value-head search
    uses them: a computation is created, fed and run once.  Running it acts
    on the caller's memory through the result pointers. *)
Class Backend `{!Chess} (Loc : Type) := {
  BackendComputation : Type;
  Backend_CreateComputation : BackendComputation;
  Backend_AddInput :
    BackendComputation → EvalPosition → EvalResultPtr Loc →
    option BackendComputation;
  Backend_ComputeBlocking :
    BackendComputation → Heap Loc → option (Heap Loc);
}.

(** The wrapped network is such a backend. *)
Definition NetworkAsBackend_Backend `{!Chess, !Encoder, !FastMath}
    {Loc : Type} `{!EqDecision Loc} (backend : NetworkAsBackend)
  : Backend Loc :=
  {| BackendComputation := NetworkAsBackendComputation Loc;
     Backend_CreateComputation := CreateComputation backend;
     Backend_AddInput := λ c position result,
       fst <$> AddInput backend c position result;
     Backend_ComputeBlocking := λ c h,
       (λ r, snd (fst r)) <$> ComputeBlocking backend c h |}.

(** Enqueueing a list of requests on a backend computation, in order. *)
Fixpoint Backend_AddInputs `{!Chess} {Loc : Type} `{!Backend Loc}
    (computation : BackendComputation)
    (requests : list (EvalPosition * EvalResultPtr Loc))
  : option BackendComputation :=
  match requests with
  | [] => Some computation
  | (position, result) :: requests =>
      computation ← Backend_AddInput computation position result;
      Backend_AddInputs computation requests
  end.

(** ** Search telemetry *)

Module WDL.
Record t := { w : Z; d : Z; l : Z }.
End WDL.

Module ThinkingInfo.
Record t := {
  depth : Z;
  seldepth : Z;
  nodes : Z;
  mate : option Z;
  score : option Z;
  wdl : option WDL.t;
}.
End ThinkingInfo.

(** [std::max_element] and [std::min_element] share one loop: the candidate
    is replaced whenever [replace candidate x] holds for the element [x]
    under the cursor, so the first extremal element is kept. *)
Fixpoint scan_extremum {A} (replace : A → A → bool) (best : A)
    (best_idx idx : nat) (rest : list A) : nat :=
  match rest with
  | [] => best_idx
  | x :: rest =>
      if replace best x
      then scan_extremum replace x idx (S idx) rest
      else scan_extremum replace best best_idx (S idx) rest
  end.

(** The index [it - begin] of the iterator the algorithm returns; on an
    empty range that is [end - begin = 0]. *)
Definition extremum_index {A} (replace : A → A → bool) (l : list A) : nat :=
  match l with
  | [] => 0%nat
  | x :: rest => scan_extremum replace x 0 1 rest
  end.

Definition max_element (l : list Q) : nat :=
  extremum_index (λ largest x, Float.ltb largest x) l.

(** The constant of the centipawn conversion. *)
Definition kTanScale : Q := 15637541897 # 10000000000.

(** ** The value-head score *)

Module Score.

Record t := {
  negative_q : Q;
  d : Q;
  mate : option Z;
}.

(** [Score::operator<]. *)
Definition lt (this other : t) : bool :=
  if bool_decide (is_Some (mate this)) && negb (bool_decide (is_Some (mate other)))
  then true
  else if negb (bool_decide (is_Some (mate this))) && bool_decide (is_Some (mate other))
  then false
  else
    match mate this, mate other with
    | Some a, Some b => (a <? b)%Z
    | _, _ => Float.ltb (negative_q this) (negative_q other)
    end.

(** Two scores the comparison does not tell apart: mates of the same
    distance, or non-mates of the same negated value. *)
Definition tied (this other : t) : Prop :=
  match mate this, mate other with
  | Some a, Some b => a = b
  | None, None => negative_q this == negative_q other
  | _, _ => False
  end.

(** The value-initialised score of [std::vector<Score>(n)]. *)
Definition zero : t := {| negative_q := 0; d := 0; mate := None |}.

(** A member of a score that a [float*] can point to. *)
Inductive field := f_negative_q | f_d.

Definition get (f : field) (s : t) : Q :=
  match f with f_negative_q => negative_q s | f_d => d s end.

(** Address of a [float] member of an element of the [results] vector. *)
Definition loc : Type := nat * field.

(** The [float] members of [results], seen as the memory the result
    pointers point into, and back. *)
Definition to_heap (results : list t) : Heap loc :=
  λ a, from_option (get (snd a)) 0 (results !! fst a).

Definition of_heap (h : Heap loc) (results : list t) : list t :=
  imap (λ i s, {| negative_q := h (i, f_negative_q);
                  d := h (i, f_d);
                  mate := mate s |}) results.

End Score.

#[export] Instance Score_field_eq_dec : EqDecision Score.field.
Proof. solve_decision. Defined.

Definition min_element (l : list Score.t) : nat :=
  extremum_index (λ smallest x, Score.lt x smallest) l.

(** ** Instamove searches *)

Record GoParams := {
  go_infinite : bool;
  go_ponder : bool;
}.

Section Instamove.
Context `{!Chess, !CMath}.

Record BestMoveInfo := {
  bestmove : Move;
  ponder : Move;
}.

(** [BestMoveInfo info{bestmove}]: the ponder move is value-initialised. *)
Definition BestMoveInfo_new (bestmove : Move) : BestMoveInfo :=
  {| bestmove := bestmove; ponder := Move_default |}.

(** What the search sends to the [UciResponder]. *)
Inductive Output :=
| OutputBestMove (info : BestMoveInfo)
| OutputThinkingInfo (infos : list ThinkingInfo.t).

Record InstamoveSearch := {
  bestmove_ : Move;
  responded_bestmove_ : bool;
  game_state_ : GameState;
}.

Definition set_responded_bestmove_ (b : bool) (s : InstamoveSearch) :=
  {| bestmove_ := bestmove_ s; responded_bestmove_ := b;
     game_state_ := game_state_ s |}.

Definition set_bestmove_ (mv : Move) (s : InstamoveSearch) :=
  {| bestmove_ := mv; responded_bestmove_ := responded_bestmove_ s;
     game_state_ := game_state_ s |}.

Definition SetPosition (this : InstamoveSearch) (game_state : GameState) :=
  {| bestmove_ := bestmove_ this;
     responded_bestmove_ := responded_bestmove_ this;
     game_state_ := game_state |}.

(** [responded_bestmove_.exchange(true)]: stores [true], returns the old
    value. *)
Definition exchange_responded (this : InstamoveSearch)
  : bool * InstamoveSearch :=
  (responded_bestmove_ this, set_responded_bestmove_ true this).

Definition RespondBestMove (this : InstamoveSearch)
  : InstamoveSearch * list Output :=
  let '(old, this) := exchange_responded this in
  if old then (this, [])
  else
    let info := BestMoveInfo_new (bestmove_ this) in
    let info :=
      if IsBlackToMove (CurrentPosition (game_state_ this))
      then {| bestmove := Flip (bestmove info); ponder := ponder info |}
      else if negb (is_null (ponder info))
      then {| bestmove := bestmove info; ponder := Flip (ponder info) |}
      else info in
    (this, [OutputBestMove info]).

Section Lifecycle.
(** The pure virtual [GetBestMove] of the strategy at hand: the move it
    picks and what it sends to the responder on the way. *)
Variable GetBestMove : GameState → option (Move * list Output).

Definition StartSearch (this : InstamoveSearch) (go_params : GoParams)
  : option (InstamoveSearch * list Output) :=
  let this := set_responded_bestmove_ false this in
  '(mv, out) ← GetBestMove (game_state_ this);
  let this := set_bestmove_ mv this in
  if negb (go_infinite go_params) && negb (go_ponder go_params)
  then let '(this, out') := RespondBestMove this in Some (this, out ++ out')
  else Some (this, out).

Definition StopSearch (this : InstamoveSearch)
  : InstamoveSearch * list Output :=
  RespondBestMove this.

Definition AbortSearch (this : InstamoveSearch)
  : InstamoveSearch * list Output :=
  (set_responded_bestmove_ true this, []).

(** The calls the engine makes on a search. *)
Inductive Call :=
| CallSetPosition (game_state : GameState)
| CallStartSearch (go_params : GoParams)
| CallStopSearch
| CallAbortSearch.

Definition run_call (this : InstamoveSearch) (c : Call)
  : option (InstamoveSearch * list Output) :=
  match c with
  | CallSetPosition gs => Some (SetPosition this gs, [])
  | CallStartSearch go => StartSearch this go
  | CallStopSearch => Some (StopSearch this)
  | CallAbortSearch => Some (AbortSearch this)
  end.

(** Runs the calls in order; the outputs are kept per call. *)
Fixpoint run_calls (this : InstamoveSearch) (calls : list Call)
  : option (InstamoveSearch * list (list Output)) :=
  match calls with
  | [] => Some (this, [])
  | c :: calls =>
      '(this, out) ← run_call this c;
      '(this, outs) ← run_calls this calls;
      Some (this, out :: outs)
  end.
End Lifecycle.

Definition is_bestmove (o : Output) : bool :=
  match o with OutputBestMove _ => true | OutputThinkingInfo _ => false end.

(** Number of best-move reports among the outputs of a run of calls. *)
Definition reports (outs : list (list Output)) : nat :=
  length (filter (λ o, is_bestmove o = true) (concat outs)).

Definition is_start (c : Call) : bool :=
  match c with CallStartSearch _ => true | _ => false end.

(** *** Policy head *)

Definition PolicyHead_info (res : EvalResult) : ThinkingInfo.t :=
  {| ThinkingInfo.depth := 1;
     ThinkingInfo.seldepth := 1;
     ThinkingInfo.nodes := 1;
     ThinkingInfo.mate := None;
     ThinkingInfo.score :=
       Some (Float.trunc (90 * tan (kTanScale * res_q res)));
     ThinkingInfo.wdl :=
       Some {| WDL.w := Float.to_int (500 * (1 + res_q res - res_d res));
               WDL.d := Float.to_int (1000 * res_d res);
               WDL.l := Float.to_int (500 * (1 - res_q res - res_d res)) |}
  |}.

(** [PolicyHeadSearch::GetBestMove], over the backend's [EvaluateBatch]. *)
Definition PolicyHead_GetBestMove
    (EvaluateBatch : list EvalPosition → list EvalResult)
    (game_state : GameState) : option (Move * list Output) :=
  let positions := GetPositions game_state in
  back ← list.last positions;
  let moves : list Move := GenerateLegalMoves back in
  let res :=
    EvaluateBatch [{| pos := positions; legal_moves := moves |}] in
  res0 ← res !! 0%nat;
  let best_move_idx := max_element (res_p res0) in
  let infos := [PolicyHead_info res0] in
  best_move ← moves !! best_move_idx;
  Some (best_move, [OutputThinkingInfo infos]).

(** *** Value head *)

Definition draw_score : Score.t :=
  {| Score.negative_q := 0; Score.d := 1; Score.mate := None |}.

Definition mate_score : Score.t :=
  {| Score.negative_q := -1; Score.d := 0; Score.mate := Some 1%Z |}.

(** The request of the [UNDECIDED] case for move [i]: value and
    draw-probability of [results[i]], no moves-left, no policy. *)
Definition value_request (i : nat) : EvalResultPtr Score.loc :=
  {| q := Some (i, Score.f_negative_q); d := Some (i, Score.f_d);
     m := None; p := [] |}.

(** The loop over the legal moves, from index [i] on. *)
Fixpoint evaluate_moves `{!Backend Score.loc} (moves : list Move) (i : nat)
    (history : PositionHistory) (computation : BackendComputation)
    (results : list Score.t)
  : option (PositionHistory * BackendComputation * list Score.t) :=
  match moves with
  | [] => Some (history, computation, results)
  | move :: moves =>
      let history := History_Append history move in
      '(computation, results) ←
        match ComputeGameResult history with
        | UNDECIDED =>
            computation ←
              Backend_AddInput computation
                {| pos := History_GetPositions history; legal_moves := [] |}
                (value_request i);
            Some (computation, results)
        | DRAW => Some (computation, <[i := draw_score]> results)
        | _ => Some (computation, <[i := mate_score]> results)
        end;
      let history := History_Pop history in
      evaluate_moves moves (S i) history computation results
  end.

(** What the loop leaves in [results] for a move, seen from the history
    the loop starts with: the fixed draw score, the one-ply mate score, or
    the value-initialised score that the backend is asked to fill. *)
Definition move_score (history : PositionHistory) (mv : Move) : Score.t :=
  match ComputeGameResult (History_Append history mv) with
  | UNDECIDED => Score.zero
  | DRAW => draw_score
  | _ => mate_score
  end.

(** The evaluations the loop asks for: one for each move that leaves the
    game undecided, for the position after the move, with the value and
    draw slots of that move's score. *)
Fixpoint requests_from (history : PositionHistory) (i : nat)
    (moves : list Move) : list (EvalPosition * EvalResultPtr Score.loc) :=
  match moves with
  | [] => []
  | mv :: moves =>
      match ComputeGameResult (History_Append history mv) with
      | UNDECIDED =>
          [({| pos := History_GetPositions (History_Append history mv);
               legal_moves := [] |}, value_request i)]
      | _ => []
      end ++ requests_from history (S i) moves
  end.

(** The assignments the loop makes to [results], from index [i] on. *)
Fixpoint assign_from (history : PositionHistory) (i : nat)
    (moves : list Move) (results : list Score.t) : list Score.t :=
  match moves with
  | [] => results
  | mv :: moves =>
      assign_from history (S i) moves
        match ComputeGameResult (History_Append history mv) with
        | UNDECIDED => results
        | DRAW => <[i := draw_score]> results
        | _ => <[i := mate_score]> results
        end
  end.

Definition ValueHead_info (nodes : nat) (r : Score.t) : ThinkingInfo.t :=
  {| ThinkingInfo.depth := 1;
     ThinkingInfo.seldepth := 1;
     ThinkingInfo.nodes := Z.of_nat nodes;
     ThinkingInfo.mate := Score.mate r;
     ThinkingInfo.score :=
       match Score.mate r with
       | Some _ => None
       | None =>
           Some (Float.trunc (-90 * tan (kTanScale * Score.negative_q r)))
       end;
     ThinkingInfo.wdl :=
       match Score.mate r with
       | Some _ => None
       | None =>
           Some {| WDL.w :=
                     Float.to_int (500 * (1 - Score.negative_q r - Score.d r));
                   WDL.d := Float.to_int (1000 * Score.d r);
                   WDL.l :=
                     Float.to_int (500 * (1 + Score.negative_q r - Score.d r))
                |}
       end |}.

(** [ValueHeadSearch::GetBestMove]. *)
Definition ValueHead_GetBestMove `{!Backend Score.loc}
    (game_state : GameState) : option (Move * list Output) :=
  let computation := Backend_CreateComputation in
  let history := History_new (GetPositions game_state) in
  let moves : list Move := GenerateLegalMoves (History_Last history) in
  let results := replicate (length moves) Score.zero in
  '(_, computation, results) ←
    evaluate_moves moves 0 history computation results;
  h ← Backend_ComputeBlocking computation (Score.to_heap results);
  let results := Score.of_heap h results in
  let best_idx := min_element results in
  r ← results !! best_idx;
  let infos := [ValueHead_info (length moves) r] in
  best_move ← moves !! best_idx;
  Some (best_move, [OutputThinkingInfo infos]).

End Instamove.

(** ** Concurrent reporters

    Threads that run [RespondBestMove] or [AbortSearch] against one search
    object, interleaved at the operations on the atomic flag. *)

Module Race.

(** Where a thread stands: before the [exchange] of [RespondBestMove],
    past the guard with the report still to send, before the [store] of
    [AbortSearch], or finished. *)
Inductive pc := at_exchange | at_output | at_store | finished.

Record state := {
  flag : bool;
  threads : list pc;
  emitted : nat;
}.

Inductive step : state → state → Prop :=
| step_exchange s i :
    threads s !! i = Some at_exchange →
    step s {| flag := true;
              threads :=
                <[i := if flag s then finished else at_output]> (threads s);
              emitted := emitted s |}
| step_output s i :
    threads s !! i = Some at_output →
    step s {| flag := flag s;
              threads := <[i := finished]> (threads s);
              emitted := S (emitted s) |}
| step_store s i :
    threads s !! i = Some at_store →
    step s {| flag := true;
              threads := <[i := finished]> (threads s);
              emitted := emitted s |}.

Definition output_due (t : pc) : nat :=
  match t with at_output => 1%nat | _ => 0%nat end.

(** Number of threads past the guard that have not sent their report. *)
Definition pending (s : state) : nat := sum_list_with output_due (threads s).

(** One report at most is sent or due, and none while the flag is
    clear. *)
Definition budget (s : state) : Prop :=
  (emitted s + pending s ≤ if flag s then 1 else 0)%nat.

(** The flag is set, nothing is due and [n] reports were sent. *)
Definition closed (s : state) (n : nat) : Prop :=
  flag s = true ∧ pending s = 0%nat ∧ emitted s = n.

End Race.

(** ** Reachable backends *)

(** The backends a program can hold: built by the constructor, then
    reconfigured any number of times. *)
Inductive configured `{!Chess, !Encoder} (ndebug : bool)
  : NetworkAsBackend → Prop :=
| configured_new storage network options this :
    NetworkAsBackend_new ndebug storage network options = Some this →
    configured ndebug this
| configured_update this options this' r :
    configured ndebug this →
    UpdateConfiguration ndebug this options = Some (this', r) →
    configured ndebug this'.

(** ** The normalisation, as the specification words it *)

(** Maximum of a non-empty list of raw scores. *)
Definition maximum (r0 : Q) (rs : list Q) : Q := foldl Float.std_max r0 rs.

(** Sum of a list, accumulated from the left as [std::accumulate] does. *)
Definition sumQ (l : list Q) : Q := foldl Qplus 0 l.

(** [exp((raw - max) * temperature)] for every raw score. *)
Definition exponentials `{!FastMath} (temperature : Q) (raws : list Q)
  : list Q :=
  match raws with
  | [] => []
  | r0 :: rs =>
      (λ raw, FastExp ((raw - maximum r0 rs) * temperature)) <$> raws
  end.

(** Every exponential divided by their sum, or left alone when the sum is
    not positive. *)
Definition softmax `{!FastMath} (temperature : Q) (raws : list Q) : list Q :=
  let exps := exponentials temperature raws in
  let total := sumQ exps in
  if Float.ltb 0 total then (λ v, v / total) <$> exps else exps.

(** The same computed the way the code does: every exponential multiplied
    by the reciprocal of the sum, or by 1. *)
Definition normalised `{!FastMath} (temperature : Q) (raws : list Q)
  : list Q :=
  let exps := exponentials temperature raws in
  let total := sumQ exps in
  let scale := if Float.ltb 0 total then 1 / total else 1 in
  (λ v, v * scale) <$> exps.

(** ** The stores of a batch, as the specification words them *)

Section Writes.
Context `{!Chess, !Encoder, !FastMath}.
Context {Loc : Type}.

(** Storing a list of values at a list of addresses, in order. *)
Fixpoint write_list `{!EqDecision Loc} (locs : list Loc) (vals : list Q)
    (h : Heap Loc) : Heap Loc :=
  match locs, vals with
  | l :: locs, v :: vals => write_list locs vals (<[l := v]> h)
  | _, _ => h
  end.

(** The raw policy scores of the legal moves of entry [idx]. *)
Definition raw_scores (network : Network) (batch : list InputPlanes)
    (idx : nat) (e : Entry Loc) : list Q :=
  (λ mv, GetPVal network batch idx (MoveToNNIndex mv (transform e)))
    <$> entry_legal_moves e.

Definition slot_write (i : nat) (s : Slot) (ptr : option Loc) (v : Q)
  : list (WriteEvent Loc) :=
  match ptr with
  | None => []
  | Some l => [{| w_entry := i; w_slot := s; w_locs := [l]; w_vals := [v] |}]
  end.

(** The stores for entry [i]: value, draw-probability and moves-left from
    the network outputs at index [i] where a pointer was given, then the
    normalised policy where a span was given. *)
Definition entry_writes (backend : NetworkAsBackend)
    (batch : list InputPlanes) (i : nat) (e : Entry Loc)
  : list (WriteEvent Loc) :=
  slot_write i SlotQ (q (result e)) (GetQVal (network_ backend) batch i) ++
  slot_write i SlotD (d (result e)) (GetDVal (network_ backend) batch i) ++
  slot_write i SlotM (m (result e)) (GetMVal (network_ backend) batch i) ++
  match p (result e) with
  | [] => []
  | dst =>
      [{| w_entry := i; w_slot := SlotP; w_locs := dst;
          w_vals := normalised (softmax_policy_temperature_ backend)
                               (raw_scores (network_ backend) batch i e) |}]
  end.

(** A policy span, when given, has one element per legal move, all at
    different addresses. *)
Definition policy_span_ok (moves : list Move) (dst : list Loc) : Prop :=
  dst = [] ∨ (NoDup dst ∧ length dst = length moves).

(** The entry [AddInput] stores for a request. *)
Definition entry_of (backend : NetworkAsBackend)
    (request : EvalPosition * EvalResultPtr Loc) : Entry Loc :=
  let encoded :=
    EncodePositionForNN (input_format_ backend) (pos (fst request)) 8
                        (fill_empty_history_ backend) in
  {| input := fst encoded;
     entry_legal_moves := legal_moves (fst request);
     result := snd request;
     transform := snd encoded |}.

(** The stores of a log made for entry [i] through slot [s]. *)
Definition writes_of (i : nat) (s : Slot) (log : list (WriteEvent Loc))
  : list (WriteEvent Loc) :=
  filter (λ w, w_entry w = i ∧ w_slot w = s) log.

End Writes.

(** ** Further operations *)

(** The addresses a request lets the computation store to. *)
Definition slot_addresses {Loc : Type} (r : EvalResultPtr Loc) : list Loc :=
  option_list (q r) ++ option_list (d r) ++ option_list (m r) ++ p r.

(** A run of reconfigurations, each applied to the outcome of the one
    before; the results are dropped as a caller that ignores them would. *)
Fixpoint UpdateConfigurations `{!Chess, !Encoder} (ndebug : bool)
    (this : NetworkAsBackend) (updates : list OptionsDict)
  : option NetworkAsBackend :=
  match updates with
  | [] => Some this
  | options :: updates =>
      '(this, _) ← UpdateConfiguration ndebug this options;
      UpdateConfigurations ndebug this updates
  end.

(** [InstamoveSearch::WaitSearch], run while no other thread touches the
    search: the loop loads the flag, and sleeps and loads again while it is
    clear.  [polls] bounds the number of loads; [None] is a loop still
    spinning after that many. *)
Fixpoint WaitSearch `{!Chess} (polls : nat) (this : InstamoveSearch)
  : option unit :=
  match polls with
  | O => None
  | S polls =>
      if responded_bestmove_ this then Some tt else WaitSearch polls this
  end.

(** Threads that all run [RespondBestMove], none [AbortSearch]: while the
    flag is clear nobody has passed the guard, and once it is set exactly
    one report is sent or due. *)
Definition race_reporting (s : Race.state) : Prop :=
  Forall (λ t, t ≠ Race.at_store) (Race.threads s) ∧
  (Race.flag s = false →
   Forall (λ t, t = Race.at_exchange) (Race.threads s) ∧
   Race.emitted s = 0%nat) ∧
  (Race.flag s = true → (Race.emitted s + Race.pending s = 1)%nat).

(** What the caller finds in the slots of entry [i] once the outputs of the
    batch have been distributed: the three scalar outputs of the network at
    index [i] behind the pointers given, the normalised policy in the span
    given. *)
Definition slots_hold `{!Chess, !Encoder, !FastMath} {Loc : Type}
    (backend : NetworkAsBackend) (batch : list InputPlanes) (i : nat)
    (e : Entry Loc) (h : Heap Loc) : Prop :=
  (∀ l, q (result e) = Some l → h l = GetQVal (network_ backend) batch i) ∧
  (∀ l, d (result e) = Some l → h l = GetDVal (network_ backend) batch i) ∧
  (∀ l, m (result e) = Some l → h l = GetMVal (network_ backend) batch i) ∧
  h <$> p (result e) =
    match p (result e) with
    | [] => []
    | _ => normalised (softmax_policy_temperature_ backend)
                      (raw_scores (network_ backend) batch i e)
    end.

(** ** A small instance of the collaborators

    A game given by an explicit tree, an encoder that keeps the history as
    it is, rational stand-ins for the exponential and the tangent, and a
    network with fixed outputs.  The instance is what the closed examples
    below are evaluated on. *)

Module Sample.

(** A move is a pair of squares, numbered 0 to 63 rank by rank; mirroring
    a move mirrors the rank of both squares. *)
Definition move : Type := Z * Z.
Definition flip (mv : move) : move :=
  (Z.lxor (fst mv) 56, Z.lxor (snd mv) 56).
Definition null (mv : move) : bool := (fst mv =? 0)%Z && (snd mv =? 0)%Z.

#[warnings="-register-all"]
Inductive position :=
| Node (black : bool) (outcome : GameResult)
       (children : list (move * position)).

Definition black (x : position) : bool :=
  match x with Node b _ _ => b end.
Definition outcome (x : position) : GameResult :=
  match x with Node _ o _ => o end.
Definition children (x : position) : list (move * position) :=
  match x with Node _ _ c => c end.

Definition leaf (b : bool) (o : GameResult) : position := Node b o [].

Fixpoint find_child (mv : move) (c : list (move * position))
  : option position :=
  match c with
  | [] => None
  | (mv', x) :: c =>
      if ((fst mv =? fst mv')%Z && (snd mv =? snd mv')%Z)%bool
      then Some x else find_child mv c
  end.

Definition play (x : position) (mv : move) : position :=
  default (leaf (negb (black x)) UNDECIDED) (find_child mv (children x)).

Definition start : position := leaf false UNDECIDED.

Definition current (h : list position) : position :=
  default start (list.last h).

#[export] Instance chess : Chess :=
  {| Move := move;
     Position := position;
     GameState := list position;
     PositionHistory := list position;
     Move_default := (0, 0)%Z;
     Flip := flip;
     is_null := null;
     IsBlackToMove := black;
     GenerateLegalMoves := λ x, fst <$> children x;
     GetPositions := λ gs, gs;
     CurrentPosition := current;
     History_new := λ ps, ps;
     History_Last := current;
     History_Append := λ h mv, h ++ [play (current h) mv];
     History_Pop := λ h, take (length h - 1) h;
     History_GetPositions := λ h, h;
     ComputeGameResult := λ h, outcome (current h) |}.

#[export] Instance encoder : Encoder :=
  {| InputPlanes := list position;
     InputFormat := unit;
     EncodePositionForNN := λ _ h _ _, (h, 0%Z);
     MoveToNNIndex := λ mv _, Z.to_nat (fst mv * 64 + snd mv) |}.

(** A positive, increasing stand-in for the exponential with value 1
    at 0. *)
#[export] Instance fastmath : FastMath :=
  {| FastExp := λ x, if Qle_bool x 0 then 1 / (1 - x) else 1 + x |}.

#[export] Instance cmath : CMath := {| tan := λ x, x |}.

(** A network whose value outputs depend on the index in the batch only
    and whose raw policy is the move index scaled down. *)
Definition network : Network :=
  {| GetCapabilities :=
       {| caps_has_mlh := true; caps_has_wdl := true;
          caps_input_format := tt |};
     IsCpu := true;
     GetThreads := 2;
     GetMiniBatchSize := 7;
     GetQVal := λ _ i, inject_Z (Z.of_nat i) / 4;
     GetDVal := λ _ _, 1 # 4;
     GetMVal := λ _ _, 30;
     GetPVal := λ _ _ k, inject_Z (Z.of_nat k) / 64 |}.

Definition options : OptionsDict :=
  {| kBackendOptionsId := ""; kWeightsId := "T79.pb.gz";
     kPolicySoftmaxTemp := 2; kHistoryFill := "fen_only" |}.

(** The same options with a history-fill value outside the three. *)
Definition bogus_options : OptionsDict :=
  {| kBackendOptionsId := ""; kWeightsId := "T79.pb.gz";
     kPolicySoftmaxTemp := 2; kHistoryFill := "bogus" |}.

(** Options that only change the identity of the network. *)
Definition other_weights : OptionsDict :=
  {| kBackendOptionsId := ""; kWeightsId := "BT4.pb.gz";
     kPolicySoftmaxTemp := 2; kHistoryFill := "fen_only" |}.

(** Options that only change temperature and fill mode. *)
Definition cooler : OptionsDict :=
  {| kBackendOptionsId := ""; kWeightsId := "T79.pb.gz";
     kPolicySoftmaxTemp := 4; kHistoryFill := "always" |}.

(** The object's memory before construction. *)
Definition storage : NetworkAsBackend :=
  {| network_ := network;
     attrs_ := {| has_mlh := false; has_wdl := false; runs_on_cpu := false;
                  suggested_num_search_threads := 0;
                  recommended_batch_size := 0; maximum_batch_size := 0 |};
     input_format_ := tt;
     softmax_policy_temperature_ := 0;
     fill_empty_history_ := NO;
     backend_opts_ := ""; weights_path_ := "" |}.

(** The backend the constructor builds from [options]. *)
Definition backend : NetworkAsBackend :=
  {| network_ := network;
     attrs_ := network_attributes network;
     input_format_ := tt;
     softmax_policy_temperature_ := 1 / 2;
     fill_empty_history_ := FEN_ONLY;
     backend_opts_ := ""; weights_path_ := "T79.pb.gz" |}.

(** A backend that gives every legal move the same probability, and one
    that prefers moves further down the list. *)
Definition uniform_batch (batch : list EvalPosition) : list EvalResult :=
  (λ ep, {| res_q := 1 # 4; res_d := 1 # 2; res_m := 30;
            res_p := (λ _, 1 # 3) <$> legal_moves ep |}) <$> batch.

Definition graded_batch (batch : list EvalPosition) : list EvalResult :=
  (λ ep, {| res_q := 1 # 4; res_d := 1 # 2; res_m := 30;
            res_p := imap (λ i _, inject_Z (Z.of_nat (i `min` 1)) / 3)
                          (legal_moves ep) |}) <$> batch.

(** A backend object whose snapshot does not agree with its network. *)
Definition stale : NetworkAsBackend :=
  {| network_ := network;
     attrs_ := {| has_mlh := false; has_wdl := false; runs_on_cpu := false;
                  suggested_num_search_threads := 1;
                  recommended_batch_size := 1; maximum_batch_size := 1 |};
     input_format_ := tt;
     softmax_policy_temperature_ := 1 / 2;
     fill_empty_history_ := FEN_ONLY;
     backend_opts_ := ""; weights_path_ := "T79.pb.gz" |}.

(** Three legal moves for white: one draws at once, one mates, one plays
    on. *)
Definition e2e4 : move := (12, 28)%Z.
Definition d2d4 : move := (11, 27)%Z.
Definition g1f3 : move := (6, 21)%Z.

Definition middlegame : position :=
  Node false UNDECIDED
       [(e2e4, leaf true UNDECIDED);
        (d2d4, leaf true DRAW);
        (g1f3, leaf true WHITE_WON)].

(** The same choice with black to move. *)
Definition middlegame_black : position :=
  Node true UNDECIDED
       [(e2e4, leaf false UNDECIDED);
        (d2d4, leaf false UNDECIDED)].

(** Two requests whose slots are addresses in a memory of [float]s
    indexed by numbers: the first asks for value, draw-probability and the
    policy over the three legal moves, the second for value and
    moves-left only. *)
Definition policy_request : EvalPosition * EvalResultPtr nat :=
  ({| pos := [middlegame]; legal_moves := [e2e4; d2d4; g1f3] |},
   {| q := Some 0%nat; d := Some 1%nat; m := None;
      p := [10; 11; 12]%nat |}).

Definition value_request : EvalPosition * EvalResultPtr nat :=
  ({| pos := [middlegame; leaf true UNDECIDED]; legal_moves := [] |},
   {| q := Some 2%nat; d := None; m := Some 3%nat; p := [] |}).

Definition requests : list (EvalPosition * EvalResultPtr nat) :=
  [policy_request; value_request].

Definition memory : nat → Q := λ _, 0.

(** The computation holding the first request. *)
Definition computation : NetworkAsBackendComputation nat :=
  {| computation_ := [];
     entries_ := {| capacity := 1024;
                    items := [entry_of backend policy_request] |} |}.

(** Searches set to a position with white, and with black, to move. *)
Definition white_search : InstamoveSearch :=
  {| bestmove_ := e2e4; responded_bestmove_ := false;
     game_state_ := [middlegame] |}.

Definition black_search : InstamoveSearch :=
  {| bestmove_ := e2e4; responded_bestmove_ := false;
     game_state_ := [middlegame_black] |}.

Definition go : GoParams := {| go_infinite := false; go_ponder := false |}.

(** A network with the same raw policy value at every index, one whose
    raw policy is that of [network] raised by 1, and backends on them. *)
Definition flat_network : Network :=
  {| GetCapabilities := GetCapabilities network;
     IsCpu := true;
     GetThreads := 2;
     GetMiniBatchSize := 7;
     GetQVal := GetQVal network;
     GetDVal := GetDVal network;
     GetMVal := GetMVal network;
     GetPVal := λ _ _ _, 1 # 3 |}.

Definition raised_network : Network :=
  {| GetCapabilities := GetCapabilities network;
     IsCpu := true;
     GetThreads := 2;
     GetMiniBatchSize := 7;
     GetQVal := GetQVal network;
     GetDVal := GetDVal network;
     GetMVal := GetMVal network;
     GetPVal := λ batch i k, GetPVal network batch i k + 1 |}.

Definition on_network (network : Network) : NetworkAsBackend :=
  {| network_ := network;
     attrs_ := network_attributes network;
     input_format_ := tt;
     softmax_policy_temperature_ := 1 / 2;
     fill_empty_history_ := FEN_ONLY;
     backend_opts_ := ""; weights_path_ := "T79.pb.gz" |}.

(** A position in which the side to move has been mated. *)
Definition mated : position := leaf true WHITE_WON.

Definition go_infinite_ : GoParams :=
  {| go_infinite := true; go_ponder := false |}.

(** Two threads in [RespondBestMove], before and after they have run. *)
Definition two_reporters : Race.state :=
  {| Race.flag := false;
     Race.threads := [Race.at_exchange; Race.at_exchange];
     Race.emitted := 0 |}.

Definition both_through : Race.state :=
  {| Race.flag := true;
     Race.threads := [Race.finished; Race.finished];
     Race.emitted := 1 |}.

End Sample.

(** * Properties *)

(** ** Comparison of floats *)

Lemma ltb_lt (a b : Q) : Float.ltb a b = true ↔ a < b.
Proof.
  unfold Float.ltb. rewrite negb_true_iff.
  split.
  - intros Hle. apply Qnot_le_lt. intros Hba.
    apply Qle_bool_iff in Hba. congruence.
  - intros Hlt. destruct (Qle_bool b a) eqn:E; [|reflexivity].
    apply Qle_bool_iff in E. exfalso. exact (Qlt_not_le _ _ Hlt E).
Qed.

Lemma ltb_ge (a b : Q) : Float.ltb a b = false ↔ b <= a.
Proof.
  unfold Float.ltb. rewrite negb_false_iff. apply Qle_bool_iff.
Qed.

Lemma ltb_irrefl (a : Q) : Float.ltb a a = false.
Proof. apply ltb_ge, Qle_refl. Qed.

(** ** History-fill modes *)

Lemma EncodeHistoryFill_recognised (ndebug : bool) (s : string) :
  recognised_history_fill s = true →
  ∃ fill, EncodeHistoryFill ndebug s = Some fill.
Proof.
  unfold recognised_history_fill, EncodeHistoryFill, assert.
  destruct (String.eqb s "fen_only"); [eauto|].
  destruct (String.eqb s "always"); [eauto|].
  simpl. intros ->. destruct ndebug; simpl; eauto.
Qed.

Lemma EncodeHistoryFill_ndebug (s : string) :
  ∃ fill, EncodeHistoryFill true s = Some fill.
Proof.
  unfold EncodeHistoryFill, assert.
  destruct (String.eqb s "fen_only"); [eauto|].
  destruct (String.eqb s "always"); simpl; eauto.
Qed.

Lemma EncodeHistoryFill_unrecognised (ndebug : bool) (s : string) :
  recognised_history_fill s = false →
  EncodeHistoryFill ndebug s = if ndebug then Some NO else None.
Proof.
  unfold recognised_history_fill, EncodeHistoryFill, assert.
  destruct (String.eqb s "fen_only"); [discriminate|].
  destruct (String.eqb s "always"); [discriminate|].
  simpl. intros ->. by destruct ndebug.
Qed.

(** ** Reconfiguration *)

Section Configuration.
Context `{!Chess, !Encoder}.

Lemma UpdateConfiguration_restart ndebug this options :
  identity_changed this options →
  UpdateConfiguration ndebug this options = Some (this, NEED_RESTART).
Proof.
  unfold UpdateConfiguration.
  intros [Hne|Hne].
  - apply String.eqb_neq in Hne. by rewrite Hne.
  - destruct (String.eqb (backend_opts_ this) (kBackendOptionsId options));
      [|done].
    apply String.eqb_neq in Hne. by rewrite Hne.
Qed.

Lemma UpdateConfiguration_in_place ndebug this options :
  ¬ identity_changed this options →
  UpdateConfiguration ndebug this options =
    fill ← EncodeHistoryFill ndebug (kHistoryFill options);
    Some (reconfigured this options fill, UPDATE_OK).
Proof.
  unfold UpdateConfiguration, identity_changed. intros Hsame.
  destruct (String.eqb_spec (backend_opts_ this) (kBackendOptionsId options))
    as [_|Hne]; [|tauto].
  destruct (String.eqb_spec (weights_path_ this) (kWeightsId options))
    as [_|Hne]; [|tauto].
  reflexivity.
Qed.

Lemma identity_changed_dec this options :
  identity_changed this options ∨ ¬ identity_changed this options.
Proof.
  unfold identity_changed.
  destruct (decide (backend_opts_ this = kBackendOptionsId options));
    destruct (decide (weights_path_ this = kWeightsId options)); tauto.
Qed.

Lemma UpdateConfiguration_inv ndebug this options this' r :
  UpdateConfiguration ndebug this options = Some (this', r) →
  (identity_changed this options ∧ this' = this ∧ r = NEED_RESTART) ∨
  (¬ identity_changed this options ∧ r = UPDATE_OK ∧
   ∃ fill, EncodeHistoryFill ndebug (kHistoryFill options) = Some fill ∧
           this' = reconfigured this options fill).
Proof.
  intros Hrun.
  destruct (identity_changed_dec this options) as [Hch|Hsame].
  - rewrite (UpdateConfiguration_restart _ _ _ Hch) in Hrun.
    left. by simplify_eq.
  - rewrite (UpdateConfiguration_in_place _ _ _ Hsame) in Hrun.
    right. destruct (EncodeHistoryFill ndebug (kHistoryFill options))
      as [fill|] eqn:E; simplify_eq/=. eauto.
Qed.

Lemma UpdateConfiguration_keeps ndebug this options this' r :
  UpdateConfiguration ndebug this options = Some (this', r) →
  network_ this' = network_ this ∧ attrs_ this' = attrs_ this ∧
  input_format_ this' = input_format_ this ∧
  backend_opts_ this' = backend_opts_ this ∧
  weights_path_ this' = weights_path_ this.
Proof.
  intros Hrun. apply UpdateConfiguration_inv in Hrun
    as [(_ & -> & _)|(_ & _ & fill & _ & ->)]; done.
Qed.

(** The constructor passes the options it captured its identity from, so
    its call of [UpdateConfiguration] is always in place. *)
Lemma NetworkAsBackend_new_eq ndebug storage network options :
  NetworkAsBackend_new ndebug storage network options =
    fill ← EncodeHistoryFill ndebug (kHistoryFill options);
    Some {| network_ := network;
            attrs_ := network_attributes network;
            input_format_ := caps_input_format (GetCapabilities network);
            softmax_policy_temperature_ := 1 / kPolicySoftmaxTemp options;
            fill_empty_history_ := fill;
            backend_opts_ := kBackendOptionsId options;
            weights_path_ := kWeightsId options |}.
Proof.
  unfold NetworkAsBackend_new.
  rewrite UpdateConfiguration_in_place.
  - by destruct (EncodeHistoryFill ndebug (kHistoryFill options)).
  - unfold identity_changed. simpl. tauto.
Qed.

(** C3.  [UpdateConfiguration] asks for a restart exactly when the backend
    sub-options or the weights path differ from the values captured at
    construction, and then changes nothing; otherwise it stores the
    reciprocal of the softmax temperature and the history-fill mode in
    place and reports success.  In both cases the network (and every other
    member) stays as it was.  The in-place update returns whenever the
    history-fill value passes [EncodeHistoryFill]. *)
Theorem UpdateConfiguration_two_tier ndebug this options :
  (identity_changed this options →
   UpdateConfiguration ndebug this options = Some (this, NEED_RESTART)) ∧
  (¬ identity_changed this options →
   ndebug = true ∨ recognised_history_fill (kHistoryFill options) = true →
   ∃ fill,
     EncodeHistoryFill ndebug (kHistoryFill options) = Some fill ∧
     UpdateConfiguration ndebug this options =
       Some (reconfigured this options fill, UPDATE_OK) ∧
     softmax_policy_temperature_ (reconfigured this options fill) =
       1 / kPolicySoftmaxTemp options ∧
     fill_empty_history_ (reconfigured this options fill) = fill ∧
     network_ (reconfigured this options fill) = network_ this) ∧
  (∀ this' r,
     UpdateConfiguration ndebug this options = Some (this', r) →
     (r = NEED_RESTART ↔ identity_changed this options) ∧
     (r = UPDATE_OK ↔ ¬ identity_changed this options) ∧
     network_ this' = network_ this).
Proof.
  split; [|split].
  - apply UpdateConfiguration_restart.
  - intros Hsame Hfill.
    assert (∃ fill, EncodeHistoryFill ndebug (kHistoryFill options)
                    = Some fill) as [fill Hf].
    { destruct Hfill as [->|Hrec].
      - apply EncodeHistoryFill_ndebug.
      - by apply EncodeHistoryFill_recognised. }
    exists fill. rewrite UpdateConfiguration_in_place, Hf by done. done.
  - intros this' r Hrun.
    pose proof (UpdateConfiguration_keeps _ _ _ _ _ Hrun) as (Hn & _).
    apply UpdateConfiguration_inv in Hrun
      as [(Hch & _ & ->)|(Hsame & -> & _)]; (split; [|split]); try done.
Qed.


Lemma configured_attrs ndebug this :
  configured ndebug this →
  attrs_ this = network_attributes (network_ this).
Proof.
  induction 1 as [storage network options this Hnew
                 |this options this' r _ IH Hrun].
  - rewrite NetworkAsBackend_new_eq in Hnew.
    destruct (EncodeHistoryFill ndebug (kHistoryFill options));
      by simplify_eq/=.
  - apply UpdateConfiguration_keeps in Hrun as (-> & -> & _). exact IH.
Qed.


End Configuration.

Lemma UpdateConfiguration_two_tier_witness :
  UpdateConfiguration false Sample.backend Sample.other_weights =
    Some (Sample.backend, NEED_RESTART) ∧
  UpdateConfiguration false Sample.backend Sample.cooler =
    Some (reconfigured Sample.backend Sample.cooler ALWAYS, UPDATE_OK).
Proof.
  destruct (UpdateConfiguration_two_tier false Sample.backend
              Sample.other_weights) as (Hrestart & _).
  destruct (UpdateConfiguration_two_tier false Sample.backend
              Sample.cooler) as (_ & Hok & _).
  split.
  - apply Hrestart. right. simpl. discriminate.
  - destruct Hok as (fill & Hfill & Hrun & _).
    + intros [Hne|Hne]; apply Hne; reflexivity.
    + right. reflexivity.
    + rewrite Hrun. vm_compute in Hfill. by simplify_eq.
Defined.





(** ** The order on scores *)

Lemma Score_lt_cases (a b : Score.t) :
  Score.lt a b =
    match Score.mate a, Score.mate b with
    | Some x, Some y => (x <? y)%Z
    | Some _, None => true
    | None, Some _ => false
    | None, None => Float.ltb (Score.negative_q a) (Score.negative_q b)
    end.
Proof.
  destruct a as [qa da [x|]], b as [qb db [y|]]; reflexivity.
Qed.

Lemma Score_lt_irrefl (a : Score.t) : Score.lt a a = false.
Proof.
  rewrite Score_lt_cases. destruct (Score.mate a).
  - apply Z.ltb_irrefl.
  - apply ltb_irrefl.
Qed.

Lemma Score_lt_trans (a b c : Score.t) :
  Score.lt a b = true → Score.lt b c = true → Score.lt a c = true.
Proof.
  rewrite !Score_lt_cases.
  destruct (Score.mate a), (Score.mate b), (Score.mate c);
    try done.
  - rewrite !Z.ltb_lt. lia.
  - rewrite !ltb_lt. apply Qlt_trans.
Qed.

(** Being no worse is transitive as well: the order is a weak order. *)
Lemma Score_lt_negtrans (a b c : Score.t) :
  Score.lt a b = false → Score.lt b c = false → Score.lt a c = false.
Proof.
  rewrite !Score_lt_cases.
  destruct (Score.mate a), (Score.mate b), (Score.mate c);
    try done.
  - rewrite !Z.ltb_ge. lia.
  - rewrite !ltb_ge. intros H1 H2. by apply Qle_trans with (Score.negative_q b).
Qed.

Lemma Score_lt_asym (a b : Score.t) :
  Score.lt a b = true → Score.lt b a = false.
Proof.
  intros Hab. destruct (Score.lt b a) eqn:Hba; [|done].
  pose proof (Score_lt_trans _ _ _ Hab Hba) as Haa.
  by rewrite Score_lt_irrefl in Haa.
Qed.

Lemma Score_tied_iff (a b : Score.t) :
  Score.tied a b ↔ Score.lt a b = false ∧ Score.lt b a = false.
Proof.
  unfold Score.tied. rewrite !Score_lt_cases.
  destruct (Score.mate a), (Score.mate b); try (split; [done|by intros []]).
  - rewrite !Z.ltb_ge. lia.
  - rewrite !ltb_ge. split.
    + intros ->. split; apply Qle_refl.
    + intros [H1 H2]. by apply Qle_antisym.
Qed.

Lemma Score_lt_total (a b : Score.t) :
  Score.lt a b = true ∨ Score.lt b a = true ∨ Score.tied a b.
Proof.
  rewrite Score_tied_iff.
  destruct (Score.lt a b), (Score.lt b a); auto.
Qed.



(** ** Reporting the best move *)

Section Reporting.
Context `{!Chess, !CMath}.

Lemma RespondBestMove_responded this :
  responded_bestmove_ this = true →
  RespondBestMove this = (this, []).
Proof.
  destruct this as [mv r gs]. simpl. intros ->. reflexivity.
Qed.

Lemma RespondBestMove_first this :
  responded_bestmove_ this = false →
  ∃ info,
    RespondBestMove this =
      (set_responded_bestmove_ true this, [OutputBestMove info]) ∧
    info =
      if IsBlackToMove (CurrentPosition (game_state_ this))
      then {| bestmove := Flip (bestmove_ this); ponder := Move_default |}
      else {| bestmove := bestmove_ this;
              ponder := if is_null Move_default then Move_default
                        else Flip Move_default |}.
Proof.
  intros Hr. unfold RespondBestMove, exchange_responded. rewrite Hr. simpl.
  destruct (IsBlackToMove (CurrentPosition (game_state_ this))).
  - eauto.
  - destruct (is_null Move_default); simpl; eauto.
Qed.

Lemma RespondBestMove_flag this :
  responded_bestmove_ (fst (RespondBestMove this)) = true.
Proof.
  unfold RespondBestMove, exchange_responded.
  by destruct (responded_bestmove_ this).
Qed.

(** C7, as the code has it.  The first [RespondBestMove] of a search
    reports one [BestMoveInfo] built from [bestmove_] alone, so its ponder
    move is the value-initialised move.  With black to move the primary
    move is mirrored and the ponder move is not.  Otherwise the primary
    move is not mirrored, and the ponder move would be mirrored only if it
    were not null: when the value-initialised move is null, both moves
    are reported as they are. *)
Theorem RespondBestMove_mirroring this :
  responded_bestmove_ this = false →
  ∃ info,
    RespondBestMove this =
      (set_responded_bestmove_ true this, [OutputBestMove info]) ∧
    (IsBlackToMove (CurrentPosition (game_state_ this)) = true →
     bestmove info = Flip (bestmove_ this) ∧ ponder info = Move_default) ∧
    (IsBlackToMove (CurrentPosition (game_state_ this)) = false →
     bestmove info = bestmove_ this ∧
     ponder info = (if is_null Move_default then Move_default
                    else Flip Move_default)) ∧
    (IsBlackToMove (CurrentPosition (game_state_ this)) = false →
     is_null Move_default = true →
     info = BestMoveInfo_new (bestmove_ this)).
Proof.
  intros Hr. destruct (RespondBestMove_first this Hr) as (info & Hrun & ->).
  eexists. split; [exact Hrun|].
  destruct (IsBlackToMove (CurrentPosition (game_state_ this))).
  - by repeat split.
  - repeat split; try done. by intros _ ->.
Qed.

(** *** Call sequences *)

Section Sequences.
Variable GetBestMove : GameState → option (Move * list Output).

(** The strategy itself sends thinking info only. *)
Hypothesis GetBestMove_quiet :
  ∀ gs mv out,
    GetBestMove gs = Some (mv, out) →
    filter (λ o, is_bestmove o = true) out = [].

Lemma reports_cons out outs :
  reports (out :: outs) =
    (length (filter (λ o, is_bestmove o = true) out) + reports outs)%nat.
Proof.
  unfold reports. simpl. by rewrite list.filter_app, length_app.
Qed.

Lemma reports_app o1 o2 :
  reports (o1 ++ o2) = (reports o1 + reports o2)%nat.
Proof.
  unfold reports. by rewrite concat_app, list.filter_app, length_app.
Qed.

Lemma RespondBestMove_reports this :
  length (filter (λ o, is_bestmove o = true) (snd (RespondBestMove this)))
  = if responded_bestmove_ this then 0%nat else 1%nat.
Proof.
  destruct (responded_bestmove_ this) eqn:Hr.
  - by rewrite RespondBestMove_responded.
  - destruct (RespondBestMove_first this Hr) as (info & -> & _). done.
Qed.

Lemma StartSearch_inv this go this' out :
  StartSearch GetBestMove this go = Some (this', out) →
  length (filter (λ o, is_bestmove o = true) out) =
    (if negb (go_infinite go) && negb (go_ponder go)
     then 1%nat else 0%nat) ∧
  responded_bestmove_ this' =
    negb (go_infinite go) && negb (go_ponder go).
Proof.
  unfold StartSearch. intros Hrun.
  destruct (GetBestMove (game_state_ (set_responded_bestmove_ false this)))
    as [[mv o]|] eqn:Hget; simplify_eq/=.
  pose proof (GetBestMove_quiet _ _ _ Hget) as Hq.
  destruct (negb (go_infinite go) && negb (go_ponder go)).
  - pose proof (RespondBestMove_reports
      (set_bestmove_ mv (set_responded_bestmove_ false this))) as Hrep.
    pose proof (RespondBestMove_flag
      (set_bestmove_ mv (set_responded_bestmove_ false this))) as Hflag.
    destruct (RespondBestMove
      (set_bestmove_ mv (set_responded_bestmove_ false this)))
      as [s o'].
    simplify_eq/=. rewrite list.filter_app, length_app, Hq. simpl.
    done.
  - simplify_eq/=. by rewrite Hq.
Qed.

(** Until the next [StartSearch], at most one report, and none once
    the flag is set. *)
Lemma run_calls_segment seg : ∀ this this' outs,
  Forall (λ c, is_start c = false) seg →
  run_calls GetBestMove this seg = Some (this', outs) →
  (reports outs ≤ 1)%nat ∧
  (responded_bestmove_ this = true → reports outs = 0%nat).
Proof.
  induction seg as [|c seg IH]; intros this this' outs Hns Hrun.
  - simplify_eq/=. unfold reports. simpl. split; [lia|done].
  - inversion Hns as [|? ? Hc Hns']; subst. simpl in Hrun.
    destruct (run_call GetBestMove this c) as [[mid out]|] eqn:Hcall;
      simplify_eq/=.
    destruct (run_calls GetBestMove mid seg) as [[fin outs']|] eqn:Hrest;
      simplify_eq/=.
    destruct (IH _ _ _ Hns' Hrest) as [Hle Hzero].
    rewrite reports_cons.
    destruct c as [gs|go| |]; simplify_eq/=.
    + split; [done|]. intros Hr. by apply Hzero.
    + unfold StopSearch in Hcall.
      pose proof (RespondBestMove_reports this) as Hrep.
      pose proof (RespondBestMove_flag this) as Hflag.
      rewrite Hcall in Hrep, Hflag. simpl in *.
      rewrite Hrep, (Hzero Hflag).
      split; [destruct (responded_bestmove_ this); simpl; lia
             |by intros ->].
    + unfold AbortSearch in Hcall. simplify_eq/=.
      rewrite (Hzero eq_refl). simpl. split; [lia|done].
Qed.

Lemma run_calls_app l1 : ∀ l2 this this' outs,
  run_calls GetBestMove this (l1 ++ l2) = Some (this', outs) →
  ∃ mid o1 o2,
    run_calls GetBestMove this l1 = Some (mid, o1) ∧
    run_calls GetBestMove mid l2 = Some (this', o2) ∧
    outs = o1 ++ o2 ∧ length o1 = length l1.
Proof.
  induction l1 as [|c l1 IH]; intros l2 this this' outs Hrun.
  - exists this, [], outs. done.
  - simpl in Hrun.
    destruct (run_call GetBestMove this c) as [[s out]|] eqn:Hcall;
      simplify_eq/=.
    destruct (run_calls GetBestMove s (l1 ++ l2)) as [[fin outs']|]
      eqn:Hrest; simplify_eq/=.
    destruct (IH _ _ _ _ Hrest) as (mid & o1 & o2 & H1 & H2 & -> & Hlen).
    exists mid, (out :: o1), o2. simpl. rewrite Hcall. simpl.
    rewrite H1. simpl. by rewrite Hlen.
Qed.

Lemma run_calls_search this go seg this' outs :
  Forall (λ c, is_start c = false) seg →
  run_calls GetBestMove this (CallStartSearch go :: seg)
    = Some (this', outs) →
  (reports outs ≤ 1)%nat ∧
  (go_infinite go = false → go_ponder go = false →
   reports (take 1 outs) = 1%nat ∧ reports (drop 1 outs) = 0%nat).
Proof.
  intros Hns Hrun. simpl in Hrun.
  destruct (StartSearch GetBestMove this go) as [[mid out]|] eqn:Hstart;
    simplify_eq/=.
  destruct (run_calls GetBestMove mid seg) as [[fin outs']|] eqn:Hrest;
    simplify_eq/=.
  destruct (StartSearch_inv _ _ _ _ Hstart) as [Hout Hflag].
  destruct (run_calls_segment _ _ _ _ Hns Hrest) as [Hle Hzero].
  rewrite reports_cons, Hout, drop_0.
  destruct (go_infinite go), (go_ponder go); simpl in *;
    try (split; [lia|done]).
  rewrite (Hzero Hflag). split; [lia|]. intros _ _.
  rewrite reports_cons, Hout. by unfold reports.
Qed.

End Sequences.
End Reporting.

(** *** Racing reporters *)

Lemma due_insert (l : list Race.pc) : ∀ i x y,
  l !! i = Some x →
  (sum_list_with Race.output_due (<[i := y]> l) + Race.output_due x =
   sum_list_with Race.output_due l + Race.output_due y)%nat.
Proof.
  induction l as [|t l IH]; intros [|i] x y Hx; simplify_eq/=; [lia|].
  specialize (IH _ _ y Hx). lia.
Qed.

Lemma race_step_budget s s' :
  Race.step s s' → Race.budget s → Race.budget s'.
Proof.
  unfold Race.budget, Race.pending.
  destruct 1 as [s i Hi|s i Hi|s i Hi]; simpl; intros Hb.
  - destruct (Race.flag s).
    + pose proof (due_insert _ _ _ Race.finished Hi). simpl in *. lia.
    + pose proof (due_insert _ _ _ Race.at_output Hi). simpl in *. lia.
  - pose proof (due_insert _ _ _ Race.finished Hi). simpl in *.
    destruct (Race.flag s); lia.
  - pose proof (due_insert _ _ _ Race.finished Hi). simpl in *.
    destruct (Race.flag s); lia.
Qed.

Lemma race_step_closed s s' n :
  Race.step s s' → Race.closed s n → Race.closed s' n.
Proof.
  unfold Race.closed, Race.pending.
  destruct 1 as [s i Hi|s i Hi|s i Hi]; simpl; intros (Hf & Hp & He).
  - rewrite Hf. pose proof (due_insert _ _ _ Race.finished Hi).
    simpl in *. repeat split; [lia|done].
  - pose proof (due_insert _ _ _ Race.finished Hi). simpl in *. lia.
  - pose proof (due_insert _ _ _ Race.finished Hi).
    simpl in *. repeat split; [lia|done].
Qed.

Lemma race_at_most_one s s' :
  rtc Race.step s s' →
  Race.pending s = 0%nat → Race.emitted s = 0%nat →
  (Race.emitted s' ≤ 1)%nat ∧
  (Race.flag s = true → Race.emitted s' = 0%nat).
Proof.
  intros Hsteps Hp He. split.
  - assert (Race.budget s) as Hs.
    { unfold Race.budget. rewrite Hp, He. destruct (Race.flag s); lia. }
    assert (Race.budget s') as Hb.
    { clear Hp He. induction Hsteps; eauto using race_step_budget. }
    unfold Race.budget in Hb. destruct (Race.flag s'); lia.
  - intros Hf.
    assert (Race.closed s 0) as Hs by done.
    assert (Race.closed s' 0) as (_ & _ & Hc); [|done].
    clear Hp He Hf. induction Hsteps; eauto using race_step_closed.
Qed.

(** *** At most one report per search *)

Section Searches.
Context `{!Chess, !CMath}.

Lemma PolicyHead_quiet EvaluateBatch gs mv out :
  PolicyHead_GetBestMove EvaluateBatch gs = Some (mv, out) →
  filter (λ o, is_bestmove o = true) out = [].
Proof.
  unfold PolicyHead_GetBestMove. intros Hrun.
  destruct (list.last (GetPositions gs)) as [back|]; simplify_eq/=.
  destruct (EvaluateBatch _ !! 0%nat) as [res0|]; simplify_eq/=.
  destruct (GenerateLegalMoves back !! _); by simplify_eq/=.
Qed.

Lemma ValueHead_quiet `{!Backend Score.loc} gs mv out :
  ValueHead_GetBestMove gs = Some (mv, out) →
  filter (λ o, is_bestmove o = true) out = [].
Proof.
  unfold ValueHead_GetBestMove. intros Hrun.
  destruct (evaluate_moves _ _ _ _ _) as [[[h c] results]|]; simplify_eq/=.
  destruct (Backend_ComputeBlocking _ _) as [hp|]; simplify_eq/=.
  destruct (Score.of_heap hp results !! _) as [r|]; simplify_eq/=.
  destruct (GenerateLegalMoves _ !! _); by simplify_eq/=.
Qed.

(** C8.  For a strategy that itself sends thinking info only (both
    strategies do): in every sequence of calls, each search, that is a
    [StartSearch] with the calls up to the next one, sends at most one
    best-move report; when the search was neither infinite nor pondering
    the report is sent by [StartSearch] and no later [StopSearch] adds one;
    the calls before the first [StartSearch] send at most one; from an
    [AbortSearch] to the next [StartSearch] nothing is sent.  When threads
    run [RespondBestMove] and [AbortSearch] concurrently, interleaved at
    the operations on the flag, at most one report is sent, and none if the
    flag was already set. *)
Theorem at_most_one_report
    (GetBestMove : GameState → option (Move * list Output))
    (GetBestMove_quiet :
       ∀ gs mv out,
         GetBestMove gs = Some (mv, out) →
         filter (λ o, is_bestmove o = true) out = []) :
  (∀ this pre go seg this' outs,
     Forall (λ c, is_start c = false) seg →
     run_calls GetBestMove this (pre ++ CallStartSearch go :: seg)
       = Some (this', outs) →
     (reports (drop (length pre) outs) ≤ 1)%nat ∧
     (go_infinite go = false → go_ponder go = false →
      reports (take 1 (drop (length pre) outs)) = 1%nat ∧
      reports (drop 1 (drop (length pre) outs)) = 0%nat)) ∧
  (∀ this seg this' outs,
     Forall (λ c, is_start c = false) seg →
     run_calls GetBestMove this seg = Some (this', outs) →
     (reports outs ≤ 1)%nat) ∧
  (∀ this pre seg this' outs,
     Forall (λ c, is_start c = false) seg →
     run_calls GetBestMove this (pre ++ CallAbortSearch :: seg)
       = Some (this', outs) →
     reports (drop (length pre) outs) = 0%nat) ∧
  (∀ s s',
     rtc Race.step s s' →
     Race.pending s = 0%nat → Race.emitted s = 0%nat →
     (Race.emitted s' ≤ 1)%nat ∧
     (Race.flag s = true → Race.emitted s' = 0%nat)).
Proof.
  split; [|split; [|split]].
  - intros this pre go seg this' outs Hns Hrun.
    apply run_calls_app in Hrun
      as (mid & o1 & o2 & _ & Hrun & -> & Hlen).
    rewrite <- Hlen, drop_app_length.
    by apply (run_calls_search GetBestMove GetBestMove_quiet mid go seg this').
  - intros this seg this' outs Hns Hrun.
    by apply (run_calls_segment GetBestMove seg this this' outs).
  - intros this pre seg this' outs Hns Hrun.
    apply run_calls_app in Hrun
      as (mid & o1 & o2 & _ & Hrun & -> & Hlen).
    rewrite <- Hlen, drop_app_length.
    simpl in Hrun.
    destruct (run_calls GetBestMove (set_responded_bestmove_ true mid) seg)
      as [[fin outs']|] eqn:Hrest; simplify_eq/=.
    rewrite reports_cons. simpl.
    by apply (run_calls_segment GetBestMove seg _ _ _ Hns Hrest).
  - exact race_at_most_one.
Qed.

End Searches.

(** ** Selecting the first extremal element *)

Section Extremum.
Context {A : Type} (replace : A → A → bool).

(** [replace y x] says that [x] is strictly better than the candidate
    [y]; the three hypotheses make "strictly better" a strict weak
    order. *)
Hypothesis replace_irrefl : ∀ x, replace x x = false.
Hypothesis replace_trans :
  ∀ x y z, replace z y = true → replace y x = true → replace z x = true.
Hypothesis replace_negtrans :
  ∀ x y z, replace z y = false → replace y x = false → replace z x = false.

Lemma scan_extremum_spec (rest : list A) : ∀ pre best best_idx,
  pre !! best_idx = Some best →
  (∀ j w, pre !! j = Some w → replace best w = false) →
  (∀ j w, (j < best_idx)%nat → pre !! j = Some w → replace w best = true) →
  ∃ b,
    (pre ++ rest) !! scan_extremum replace best best_idx (length pre) rest
      = Some b ∧
    (∀ j w, (pre ++ rest) !! j = Some w → replace b w = false) ∧
    (∀ j w,
       (j < scan_extremum replace best best_idx (length pre) rest)%nat →
       (pre ++ rest) !! j = Some w → replace w b = true).
Proof.
  induction rest as [|x rest IH]; intros pre best best_idx Hbest Hall Hfirst.
  - simpl. rewrite app_nil_r. eauto.
  - simpl. pose proof (lookup_lt_Some _ _ _ Hbest) as Hlt.
    replace (pre ++ x :: rest) with ((pre ++ [x]) ++ rest)
      by (by rewrite <- app_assoc).
    replace (S (length pre)) with (length (pre ++ [x]))
      by (rewrite length_app; simpl; lia).
    destruct (replace best x) eqn:E.
    + apply IH.
      * apply list_lookup_middle. done.
      * intros j w Hw. apply lookup_snoc_Some in Hw as [[_ Hw]|[_ <-]].
        -- destruct (replace x w) eqn:Exw; [|done].
           pose proof (replace_trans _ _ _ E Exw) as Hbw.
           by rewrite (Hall _ _ Hw) in Hbw.
        -- apply replace_irrefl.
      * intros j w Hj Hw. rewrite lookup_app_l in Hw by done.
        destruct (replace w x) eqn:Ewx; [done|].
        pose proof (replace_negtrans _ _ _ (Hall _ _ Hw) Ewx) as Hbx.
        by rewrite E in Hbx.
    + apply IH.
      * by rewrite lookup_app_l.
      * intros j w Hw. apply lookup_snoc_Some in Hw as [[_ Hw]|[_ <-]];
          eauto.
      * intros j w Hj Hw. rewrite lookup_app_l in Hw by lia. eauto.
Qed.

(** On a non-empty range the algorithm returns the first element that no
    element is strictly better than: it is strictly better than every
    element before it. *)
Lemma extremum_index_spec (l : list A) :
  l ≠ [] →
  ∃ b,
    l !! extremum_index replace l = Some b ∧
    (∀ j w, l !! j = Some w → replace b w = false) ∧
    (∀ j w, (j < extremum_index replace l)%nat →
            l !! j = Some w → replace w b = true).
Proof.
  destruct l as [|x rest]; [done|]. intros _.
  apply (scan_extremum_spec rest [x] x 0%nat).
  - done.
  - intros [|j] w Hw; simplify_eq/=. apply replace_irrefl.
  - intros j w Hj. lia.
Qed.

End Extremum.

Lemma max_element_spec (l : list Q) :
  l ≠ [] →
  ∃ v,
    l !! max_element l = Some v ∧
    (∀ j w, l !! j = Some w → w <= v) ∧
    (∀ j w, (j < max_element l)%nat → l !! j = Some w → w < v).
Proof.
  intros Hne.
  destruct (extremum_index_spec (λ largest x, Float.ltb largest x)) with (l := l)
    as (v & Hv & Hall & Hfirst); try done.
  - apply ltb_irrefl.
  - intros x y z. rewrite !ltb_lt. apply Qlt_trans.
  - intros x y z. rewrite !ltb_ge. intros H1 H2. by apply Qle_trans with y.
  - exists v. split; [done|]. split.
    + intros j w Hw. apply ltb_ge. eauto.
    + intros j w Hj Hw. apply ltb_lt. eauto.
Qed.

Lemma min_element_spec (l : list Score.t) :
  l ≠ [] →
  ∃ r,
    l !! min_element l = Some r ∧
    (∀ j s, l !! j = Some s → Score.lt s r = false) ∧
    (∀ j s, (j < min_element l)%nat → l !! j = Some s → Score.lt r s = true).
Proof.
  intros Hne.
  destruct (extremum_index_spec (λ smallest x, Score.lt x smallest))
    with (l := l) as (v & Hv & Hall & Hfirst); try done.
  - apply Score_lt_irrefl.
  - intros x y z H1 H2. by apply Score_lt_trans with y.
  - intros x y z H1 H2. by apply Score_lt_negtrans with y.
  - eauto.
Qed.

(** ** The policy-head strategy *)

Section PolicyHead.
Context `{!Chess, !CMath}.


End PolicyHead.

(** ** The value-head strategy *)

Section ValueHead.
Context `{!Chess, !CMath, !Backend Score.loc}.

(** Taking back a move restores the history. *)
Hypothesis Pop_Append : ∀ h mv, History_Pop (History_Append h mv) = h.

Lemma evaluate_moves_eq moves : ∀ i history c results,
  evaluate_moves moves i history c results =
    (c' ← Backend_AddInputs c (requests_from history i moves);
     Some (history, c', assign_from history i moves results)).
Proof.
  induction moves as [|mv moves IH]; intros i history c results; [done|].
  simpl.
  destruct (ComputeGameResult (History_Append history mv)) eqn:Eres; simpl;
    try (rewrite Pop_Append; apply IH).
  destruct (Backend_AddInput c _ _) as [c1|] eqn:Eadd; simpl; [|done].
  rewrite Pop_Append. apply IH.
Qed.

Lemma assign_from_replicate history moves : ∀ pre,
  assign_from history (length pre) moves
              (pre ++ replicate (length moves) Score.zero)
  = pre ++ (move_score history <$> moves).
Proof.
  induction moves as [|mv moves IH]; intros pre; [done|].
  simpl.
  specialize (IH (pre ++ [move_score history mv])).
  rewrite length_app in IH. simpl in IH.
  replace (length pre + 1)%nat with (S (length pre)) in IH by lia.
  rewrite <- !app_assoc in IH. simpl in IH.
  etrans; [|exact IH]. f_equal. unfold move_score.
  destruct (ComputeGameResult (History_Append history mv)); try done;
    by rewrite insert_app_r_alt, Nat.sub_diag by lia.
Qed.

Lemma elem_of_requests_from history moves : ∀ i ep r,
  (ep, r) ∈ requests_from history i moves ↔
  ∃ k mv,
    moves !! k = Some mv ∧
    ComputeGameResult (History_Append history mv) = UNDECIDED ∧
    ep = {| pos := History_GetPositions (History_Append history mv);
            legal_moves := [] |} ∧
    r = value_request (i + k).
Proof.
  induction moves as [|mv moves IH]; intros i ep r.
  - split; [by intros ?%elem_of_nil|by intros (k & mv & ? & _)].
  - simpl. rewrite elem_of_app, IH. split.
    + intros [Hin|(k & mv' & Hk & Hu & -> & ->)].
      * destruct (ComputeGameResult (History_Append history mv)) eqn:Eres;
          try (by apply elem_of_nil in Hin).
        apply list_elem_of_singleton in Hin. simplify_eq.
        exists 0%nat, mv. by rewrite Nat.add_0_r.
      * exists (S k), mv'. by replace (i + S k)%nat with (S i + k)%nat by lia.
    + intros ([|k] & mv' & Hk & Hu & -> & ->); simplify_eq/=.
      * left. rewrite Hu, Nat.add_0_r. by apply list_elem_of_singleton.
      * right. exists k, mv'.
        by replace (i + S k)%nat with (S (i + k)) by lia.
Qed.


End ValueHead.

(** ** Sums and maxima of rationals *)

Lemma foldl_Qplus (l : list Q) : ∀ a, foldl Qplus a l == a + sumQ l.
Proof.
  unfold sumQ. induction l as [|x l IH]; intros a; simpl.
  - ring.
  - rewrite (IH (a + x)), (IH (0 + x)). ring.
Qed.

Lemma sumQ_cons (x : Q) (l : list Q) : sumQ (x :: l) == x + sumQ l.
Proof. unfold sumQ at 1. simpl. rewrite foldl_Qplus. ring. Qed.

Lemma sumQ_scale (s : Q) (l : list Q) :
  sumQ ((λ v, v * s) <$> l) == sumQ l * s.
Proof.
  induction l as [|x l IH].
  - unfold sumQ. simpl. ring.
  - rewrite fmap_cons, !sumQ_cons, IH. ring.
Qed.

Lemma sumQ_Forall2 (l k : list Q) : Forall2 Qeq l k → sumQ l == sumQ k.
Proof.
  induction 1 as [|x y l k Hxy _ IH]; [reflexivity|].
  by rewrite !sumQ_cons, Hxy, IH.
Qed.

Lemma sumQ_nonneg (l : list Q) : Forall (λ v, 0 <= v) l → 0 <= sumQ l.
Proof.
  induction 1 as [|x l Hx _ IH].
  - unfold sumQ. simpl. apply Qle_refl.
  - rewrite sumQ_cons. lra.
Qed.

Lemma std_max_l (a b : Q) : a <= Float.std_max a b.
Proof.
  unfold Float.std_max. destruct (Float.ltb a b) eqn:E.
  - apply ltb_lt in E. by apply Qlt_le_weak.
  - apply Qle_refl.
Qed.

Lemma std_max_r (a b : Q) : b <= Float.std_max a b.
Proof.
  unfold Float.std_max. destruct (Float.ltb a b) eqn:E.
  - apply Qle_refl.
  - by apply ltb_ge in E.
Qed.

Lemma std_max_cases (a b : Q) :
  Float.std_max a b = a ∨ Float.std_max a b = b.
Proof. unfold Float.std_max. destruct (Float.ltb a b); auto. Qed.

(** The running maximum is one of the scores and bounds them all. *)
Lemma maximum_spec (rs : list Q) : ∀ r0,
  r0 <= maximum r0 rs ∧
  Forall (λ r, r <= maximum r0 rs) rs ∧
  maximum r0 rs ∈ r0 :: rs.
Proof.
  unfold maximum. induction rs as [|r rs IH]; intros r0; simpl.
  - split; [apply Qle_refl|]. split; [constructor|]. by left.
  - destruct (IH (Float.std_max r0 r)) as (Hle & Hall & Hin).
    split; [|split].
    + eapply Qle_trans; [apply std_max_l|exact Hle].
    + constructor; [|done].
      eapply Qle_trans; [apply std_max_r|exact Hle].
    + apply elem_of_cons in Hin as [Heq|Hin].
      * rewrite Heq. destruct (std_max_cases r0 r) as [->| ->].
        -- by left.
        -- right. by left.
      * right. by right.
Qed.

(** ** Stores through a span *)

Section Stores.
Context {Loc : Type} `{!EqDecision Loc}.

Lemma write_list_notin (locs : list Loc) : ∀ vals (h : Heap Loc) l,
  l ∉ locs → write_list locs vals h l = h l.
Proof.
  induction locs as [|l' locs IH]; intros [|v vals] h l Hl; try done.
  simpl. apply not_elem_of_cons in Hl as [Hne Hl].
  rewrite IH by done. by rewrite fn_lookup_insert_ne.
Qed.

Lemma write_list_fmap (locs : list Loc) : ∀ vals (h : Heap Loc),
  NoDup locs → length locs = length vals →
  write_list locs vals h <$> locs = vals.
Proof.
  induction locs as [|l locs IH]; intros [|v vals] h Hnd Hlen;
    simplify_eq/=; [done|].
  apply NoDup_cons in Hnd as [Hl Hnd].
  rewrite write_list_notin by done.
  rewrite fn_lookup_insert. f_equal. by apply IH.
Qed.

Lemma fmap_insert_notin (h : Heap Loc) (l : Loc) (v : Q) (locs : list Loc) :
  l ∉ locs → <[l := v]> h <$> locs = h <$> locs.
Proof.
  induction locs as [|l' locs IH]; [done|].
  intros [Hne Hl]%not_elem_of_cons. simpl.
  rewrite fn_lookup_insert_ne by done. f_equal. by apply IH.
Qed.

End Stores.

(** ** The three passes of [SoftmaxPolicy] *)

Section Passes.
Context `{!Chess, !Encoder, !FastMath}.
Context {Loc : Type} `{!EqDecision Loc}.

Lemma copy_raw_eq network batch idx t (dst : list Loc) moves :
  ∀ counter max_p h,
    (counter + length moves ≤ length dst)%nat →
    copy_raw network batch idx t dst moves counter max_p h =
      Some (foldl (λ acc v, Some (max_from acc v)) max_p
              ((λ mv, GetPVal network batch idx (MoveToNNIndex mv t))
                 <$> moves),
            write_list (take (length moves) (drop counter dst))
              ((λ mv, GetPVal network batch idx (MoveToNNIndex mv t))
                 <$> moves) h).
Proof.
  induction moves as [|mv moves IH]; intros counter max_p h Hlen; [done|].
  simpl in *.
  destruct (lookup_lt_is_Some_2 dst counter) as [l Hl]; [lia|].
  rewrite Hl. simpl. rewrite IH by lia.
  by rewrite (drop_S _ _ _ Hl).
Qed.

Lemma max_from_foldl (rs : list Q) : ∀ r0,
  foldl (λ acc v, Some (max_from acc v)) (Some r0) rs =
    Some (maximum r0 rs).
Proof.
  unfold maximum. induction rs as [|r rs IH]; intros r0; [done|].
  simpl. apply IH.
Qed.

Lemma exp_total_eq max_p temperature (dst : list Loc) : ∀ total h,
  NoDup dst →
  exp_total max_p temperature dst total h =
    (foldl Qplus total
       ((λ v, FastExp ((v - max_p) * temperature)) <$> (h <$> dst)),
     write_list dst
       ((λ v, FastExp ((v - max_p) * temperature)) <$> (h <$> dst)) h).
Proof.
  induction dst as [|l dst IH]; intros total h Hnd; [done|].
  apply NoDup_cons in Hnd as [Hl Hnd]. simpl.
  rewrite IH by done. by rewrite fmap_insert_notin.
Qed.

Lemma scale_all_eq scale (dst : list Loc) : ∀ h,
  NoDup dst →
  scale_all scale dst h =
    write_list dst ((λ v, v * scale) <$> (h <$> dst)) h.
Proof.
  induction dst as [|l dst IH]; intros h Hnd; [done|].
  apply NoDup_cons in Hnd as [Hl Hnd]. simpl.
  rewrite IH by done. by rewrite fmap_insert_notin.
Qed.

(** On a span with one element per legal move, all at different
    addresses, [SoftmaxPolicy] leaves [normalised] of the raw scores in
    the span and touches nothing else. *)
Lemma SoftmaxPolicy_normalised backend (this : NetworkAsBackendComputation Loc)
    (dst : list Loc) computation idx e h :
  items (entries_ this) !! idx = Some e →
  dst ≠ [] → NoDup dst → length dst = length (entry_legal_moves e) →
  ∃ h',
    SoftmaxPolicy backend this dst computation idx h = Some h' ∧
    h' <$> dst =
      normalised (softmax_policy_temperature_ backend)
                 (raw_scores (network_ backend) computation idx e) ∧
    ∀ l, l ∉ dst → h' l = h l.
Proof.
  intros He Hne Hnd Hlen. unfold SoftmaxPolicy. rewrite He. simpl.
  rewrite copy_raw_eq by (simpl; lia).
  simpl. rewrite drop_0, <- Hlen, firstn_all.
  fold (raw_scores (network_ backend) computation idx e).
  set (raws := raw_scores (network_ backend) computation idx e).
  assert (length raws = length dst) as Hraws.
  { unfold raws, raw_scores. by rewrite length_fmap. }
  destruct dst as [|l0 dst0] eqn:Edst; [done|]. rewrite <- Edst in *.
  destruct raws as [|r0 rs] eqn:Eraws; [by rewrite Edst in Hraws|].
  rewrite <- Eraws in *.
  assert (foldl (λ acc v, Some (max_from acc v)) None raws
          = Some (maximum r0 rs)) as ->.
  { rewrite Eraws. simpl. apply max_from_foldl. }
  simpl. rewrite exp_total_eq by done.
  rewrite write_list_fmap by done.
  set (exps := (λ v, FastExp ((v - maximum r0 rs)
                 * softmax_policy_temperature_ backend)) <$> raws).
  assert (exps = exponentials (softmax_policy_temperature_ backend) raws)
    as Hexps.
  { unfold exps, exponentials. by rewrite Eraws. }
  assert (length dst = length exps) as Hlexps.
  { unfold exps. by rewrite length_fmap. }
  eexists. split; [reflexivity|]. split.
  - rewrite scale_all_eq by done.
    rewrite (write_list_fmap dst exps) by done.
    rewrite write_list_fmap; [|done|by rewrite length_fmap].
    unfold normalised. rewrite <- Hexps. reflexivity.
  - intros l Hl. rewrite scale_all_eq by done.
    rewrite !write_list_notin by done. done.
Qed.

End Passes.

(** ** The normalised values *)

Section Normalisation.
Context `{!FastMath}.

Lemma Forall2_Qeq_fmap (f g : Q → Q) (l : list Q) :
  (∀ v, f v == g v) → Forall2 Qeq (f <$> l) (g <$> l).
Proof.
  intros Hfg. induction l as [|x l IH]; simpl; constructor; auto.
Qed.

Lemma Forall2_Qeq_fmap_id (f : Q → Q) (l : list Q) :
  (∀ v, f v == v) → Forall2 Qeq (f <$> l) l.
Proof.
  intros Hf. induction l as [|x l IH]; simpl; constructor; auto.
Qed.

(** Multiplying by the reciprocal of the sum is dividing by the sum. *)
Lemma normalised_softmax temperature raws :
  Forall2 Qeq (normalised temperature raws) (softmax temperature raws).
Proof.
  unfold normalised, softmax.
  destruct (Float.ltb 0 (sumQ (exponentials temperature raws))).
  - apply Forall2_Qeq_fmap. intros v. unfold Qdiv. ring.
  - apply Forall2_Qeq_fmap_id. intros v. ring.
Qed.

Lemma softmax_sums_to_one temperature raws :
  0 < sumQ (exponentials temperature raws) →
  sumQ (softmax temperature raws) == 1.
Proof.
  intros Hpos. unfold softmax.
  apply ltb_lt in Hpos as Hb. rewrite Hb.
  change (λ v, v / sumQ (exponentials temperature raws))
    with (λ v, v * / sumQ (exponentials temperature raws)).
  rewrite sumQ_scale. apply Qmult_inv_r.
  intros Hz. rewrite Hz in Hpos. by apply Qlt_irrefl in Hpos.
Qed.

Lemma softmax_unscaled temperature raws :
  sumQ (exponentials temperature raws) <= 0 →
  softmax temperature raws = exponentials temperature raws.
Proof.
  intros Hle. unfold softmax. apply ltb_ge in Hle. by rewrite Hle.
Qed.

Lemma exponentials_nonneg temperature raws :
  0 <= temperature →
  (∀ x, x <= 0 → 0 <= FastExp x) →
  Forall (λ v, 0 <= v) (exponentials temperature raws).
Proof.
  intros Ht Hexp. unfold exponentials.
  destruct raws as [|r0 rs]; [constructor|].
  destruct (maximum_spec rs r0) as (H0 & Hall & _).
  apply Forall_fmap. apply Forall_cons_2.
  - simpl. apply Hexp. nra.
  - eapply Forall_impl; [exact Hall|]. simpl. intros r Hr. apply Hexp. nra.
Qed.

Lemma normalised_nonneg temperature raws :
  0 <= temperature →
  (∀ x, x <= 0 → 0 <= FastExp x) →
  Forall (λ v, 0 <= v) (normalised temperature raws).
Proof.
  intros Ht Hexp.
  pose proof (exponentials_nonneg _ raws Ht Hexp) as Hnn.
  pose proof (sumQ_nonneg _ Hnn) as Hsum.
  unfold normalised. apply Forall_fmap.
  eapply Forall_impl; [exact Hnn|]. simpl. intros v Hv.
  destruct (Float.ltb 0 (sumQ (exponentials temperature raws))) eqn:E.
  - apply ltb_lt in E. apply Qmult_le_0_compat; [done|].
    unfold Qdiv. rewrite Qmult_1_l. apply Qinv_le_0_compat.
    by apply Qlt_le_weak.
  - rewrite Qmult_1_r. done.
Qed.

End Normalisation.

(** ** Enqueueing and distributing *)

Section Distribution.
Context `{!Chess, !Encoder, !FastMath}.
Context {Loc : Type} `{!EqDecision Loc}.

Implicit Types this : NetworkAsBackendComputation Loc.
Implicit Types e : Entry Loc.

Lemma AddInput_eq backend this position result :
  (size (entries_ this) < capacity (entries_ this))%nat →
  AddInput backend this position result =
    Some ({| computation_ := computation_ this;
             entries_ :=
               {| capacity := capacity (entries_ this);
                  items := items (entries_ this)
                             ++ [entry_of backend (position, result)] |} |},
          ENQUEUED_FOR_EVAL).
Proof.
  intros Hcap. unfold AddInput, entry_of, emplace_back, update_at. simpl.
  destruct (EncodePositionForNN _ _ _ _) as [planes t].
  rewrite decide_True by done. simpl.
  unfold size. rewrite list_lookup_middle by done. simpl.
  rewrite insert_app_r_alt, Nat.sub_diag by done. done.
Qed.

Lemma AddInputs_eq backend requests : ∀ this,
  (size (entries_ this) + length requests ≤ capacity (entries_ this))%nat →
  AddInputs backend this requests =
    Some {| computation_ := computation_ this;
            entries_ :=
              {| capacity := capacity (entries_ this);
                 items := items (entries_ this)
                            ++ (entry_of backend <$> requests) |} |}.
Proof.
  induction requests as [|[position result] requests IH]; intros this Hcap.
  - simpl. rewrite app_nil_r. by destruct this as [c [cap its]].
  - simpl in *. rewrite AddInput_eq by lia. simpl.
    rewrite IH.
    + simpl. by rewrite <- app_assoc.
    + unfold size in *. simpl. rewrite length_app. simpl. lia.
Qed.

Lemma store_if_log i s ptr v (st : Heap Loc * list (WriteEvent Loc)) :
  snd (store_if i s ptr v st) = snd st ++ slot_write i s ptr v.
Proof. destruct ptr; simpl; [done|by rewrite app_nil_r]. Qed.

Lemma distribute_eq backend this computation i e
    (st : Heap Loc * list (WriteEvent Loc)) :
  items (entries_ this) !! i = Some e →
  policy_span_ok (entry_legal_moves e) (p (result e)) →
  ∃ h',
    distribute backend this computation i st =
      Some (h', snd st ++ entry_writes backend computation i e).
Proof.
  intros He Hok. unfold distribute, entry_writes. rewrite He. simpl.
  set (st3 := store_if i SlotM _ _ _).
  assert (snd st3 =
          snd st ++
          slot_write i SlotQ (q (result e))
                     (GetQVal (network_ backend) computation i) ++
          slot_write i SlotD (d (result e))
                     (GetDVal (network_ backend) computation i) ++
          slot_write i SlotM (m (result e))
                     (GetMVal (network_ backend) computation i)) as Hlog.
  { unfold st3. by rewrite !store_if_log, <- !app_assoc. }
  destruct (p (result e)) as [|l0 dst0] eqn:Ep.
  - exists (fst st3). rewrite app_nil_r, <- Hlog. by destruct st3.
  - destruct Hok as [Hnil|[Hnd Hlen]]; [done|].
    destruct (SoftmaxPolicy_normalised backend this (l0 :: dst0) computation
                i e (fst st3) He) as (h' & Hrun & Hvals & _); try done.
    rewrite Hrun. simpl. exists h'.
    rewrite Hlog, <- !app_assoc, <- Hvals. done.
Qed.

Lemma distribute_loop_eq backend this computation (es : list (Entry Loc)) :
  ∀ k (st : Heap Loc * list (WriteEvent Loc)),
    (∀ j e, es !! j = Some e →
            items (entries_ this) !! (k + j)%nat = Some e ∧
            policy_span_ok (entry_legal_moves e) (p (result e))) →
    ∃ h',
      distribute_loop backend this computation (seq k (length es)) st =
        Some (h',
              snd st ++
              concat (imap (λ j e, entry_writes backend computation
                                                (k + j) e) es)).
Proof.
  induction es as [|e es IH]; intros k st Hes.
  - exists (fst st). simpl. rewrite app_nil_r. by destruct st.
  - simpl.
    destruct (Hes 0%nat e eq_refl) as [He Hok].
    rewrite Nat.add_0_r in He.
    destruct (distribute_eq backend this computation k e st He Hok)
      as (h1 & ->).
    simpl.
    destruct (IH (S k) (h1, snd st ++ entry_writes backend computation k e))
      as (h' & ->).
    { intros j e' Hj. specialize (Hes (S j) e' Hj).
      by replace (S k + j)%nat with (k + S j)%nat by lia. }
    exists h'. simpl. rewrite <- app_assoc, Nat.add_0_r.
    assert (imap (λ j e0, entry_writes backend computation (S (k + j)) e0) es
            = imap ((λ j e0, entry_writes backend computation (k + j) e0) ∘ S)
                   es) as ->; [|done].
    apply imap_ext. intros j e' _. simpl.
    by replace (k + S j)%nat with (S (k + j)) by lia.
Qed.

Lemma submit_inputs (es : list (Entry Loc)) : ∀ c,
  foldl (λ c entry, c ++ [input entry]) c es = c ++ (input <$> es).
Proof.
  induction es as [|e es IH]; intros c; simpl.
  - by rewrite app_nil_r.
  - by rewrite IH, <- app_assoc.
Qed.

(** [ComputeBlocking] on entries with well-formed policy spans. *)
Lemma ComputeBlocking_eq backend this (h : Heap Loc) :
  (∀ i e, items (entries_ this) !! i = Some e →
          policy_span_ok (entry_legal_moves e) (p (result e))) →
  ∃ h',
    ComputeBlocking backend this h =
      Some ({| computation_ :=
                 computation_ this ++ (input <$> items (entries_ this));
               entries_ := entries_ this |},
            h',
            concat (imap (entry_writes backend
                            (computation_ this
                               ++ (input <$> items (entries_ this))))
                         (items (entries_ this)))).
Proof.
  intros Hok. unfold ComputeBlocking. rewrite submit_inputs.
  set (batch := computation_ this ++ (input <$> items (entries_ this))).
  destruct (distribute_loop_eq backend
              {| computation_ := batch; entries_ := entries_ this |}
              batch (items (entries_ this)) 0 (h, []))
    as (h' & Hrun).
  { intros j e Hj. simpl. eauto. }
  unfold size. simpl in *. rewrite Hrun. simpl. eauto.
Qed.

End Distribution.

(** ** Reading the write log *)

Section Log.
Context `{!Chess, !Encoder, !FastMath}.
Context {Loc : Type} `{!EqDecision Loc}.

Implicit Types e : Entry Loc.
Implicit Types log : list (WriteEvent Loc).

Lemma entry_writes_entry backend batch i e w :
  w ∈ entry_writes backend batch i e → w_entry w = i.
Proof.
  unfold entry_writes, slot_write. intros Hw.
  destruct (q (result e)), (d (result e)), (m (result e)),
    (p (result e)); simpl in Hw;
    repeat match type of Hw with
           | _ ∈ [] => by apply elem_of_nil in Hw
           | _ ∈ _ :: _ => apply elem_of_cons in Hw as [->|Hw]; [done|]
           end.
Qed.

Lemma writes_of_app i s log1 log2 :
  writes_of i s (log1 ++ log2) = writes_of i s log1 ++ writes_of i s log2.
Proof. unfold writes_of. apply list.filter_app. Qed.

Lemma writes_of_other i s log :
  (∀ w, w ∈ log → w_entry w ≠ i) → writes_of i s log = [].
Proof.
  unfold writes_of. induction log as [|w log IH]; intros Hlog; [done|].
  rewrite filter_cons_False.
  - apply IH. intros w' Hw'. apply Hlog. by right.
  - intros [Hi _]. by apply (Hlog w); [left|].
Qed.

Lemma writes_of_entry_writes backend batch i e s :
  writes_of i s (entry_writes backend batch i e) =
    match s with
    | SlotQ => slot_write i SlotQ (q (result e))
                          (GetQVal (network_ backend) batch i)
    | SlotD => slot_write i SlotD (d (result e))
                          (GetDVal (network_ backend) batch i)
    | SlotM => slot_write i SlotM (m (result e))
                          (GetMVal (network_ backend) batch i)
    | SlotP =>
        match p (result e) with
        | [] => []
        | dst =>
            [{| w_entry := i; w_slot := SlotP; w_locs := dst;
                w_vals :=
                  normalised (softmax_policy_temperature_ backend)
                             (raw_scores (network_ backend) batch i e) |}]
        end
    end.
Proof.
  unfold writes_of, entry_writes, slot_write.
  destruct (q (result e)), (d (result e)), (m (result e)),
    (p (result e)), s; simpl;
    repeat first
      [ rewrite filter_cons_True by (split; reflexivity)
      | rewrite filter_cons_False
          by (intros [_ Hs]; simpl in Hs; discriminate) ];
    reflexivity.
Qed.

Lemma writes_of_concat backend batch (es : list (Entry Loc)) : ∀ k i s,
  writes_of i s
    (concat (imap (λ j e, entry_writes backend batch (k + j) e) es)) =
  match es !! (i - k)%nat with
  | Some e =>
      if decide (k ≤ i)%nat
      then writes_of i s (entry_writes backend batch i e) else []
  | None => []
  end.
Proof.
  induction es as [|e es IH]; intros k i s; [done|].
  rewrite imap_cons. simpl concat. rewrite writes_of_app, Nat.add_0_r.
  rewrite (imap_ext _ (λ j e0, entry_writes backend batch (S k + j) e0))
    by (intros j e' _; simpl; f_equal; lia).
  rewrite IH.
  destruct (decide (i = k)) as [->|Hne].
  - rewrite Nat.sub_diag. simpl.
    rewrite decide_True by lia.
    replace (es !! (k - S k)%nat) with (es !! 0%nat) by (f_equal; lia).
    destruct (es !! 0%nat); [rewrite decide_False by lia|];
      by rewrite app_nil_r.
  - rewrite (writes_of_other i s (entry_writes backend batch k e)).
    2:{ intros w Hw. apply entry_writes_entry in Hw. lia. }
    simpl. destruct (decide (k ≤ i)%nat) as [Hle|Hgt].
    + replace (i - k)%nat with (S (i - S k)) by lia. simpl.
      destruct (es !! (i - S k)%nat); [|done].
      by rewrite decide_True by lia.
    + replace (i - k)%nat with 0%nat by lia. simpl.
      destruct (es !! (i - S k)%nat); [|done].
      by rewrite decide_False by lia.
Qed.

Lemma elem_of_writes backend batch (es : list (Entry Loc)) : ∀ k w,
  w ∈ concat (imap (λ j e, entry_writes backend batch (k + j) e) es) →
  (k ≤ w_entry w < k + length es)%nat.
Proof.
  induction es as [|e es IH]; intros k w Hw.
  - by apply elem_of_nil in Hw.
  - rewrite imap_cons in Hw. simpl in Hw.
    apply elem_of_app in Hw as [Hw|Hw].
    + apply entry_writes_entry in Hw. simpl. lia.
    + rewrite (imap_ext _ (λ j e0, entry_writes backend batch (S k + j) e0))
        in Hw by (intros j e' _; simpl; f_equal; lia).
      apply IH in Hw. simpl. lia.
Qed.

End Log.

(** ** The batch contract *)

Section Batch.
Context `{!Chess, !Encoder, !FastMath}.
Context {Loc : Type} `{!EqDecision Loc}.



End Batch.

(** * Further properties *)

(** ** Construction and reconfiguration *)

Section MoreConfiguration.
Context `{!Chess, !Encoder}.

(** The constructor assigns every member: what the object's memory held
    before does not show in the result, which is made of the network and
    the options alone. *)
Theorem NetworkAsBackend_new_initialises ndebug storage1 storage2 network
    options :
  NetworkAsBackend_new ndebug storage1 network options =
    NetworkAsBackend_new ndebug storage2 network options ∧
  ∀ this,
    NetworkAsBackend_new ndebug storage1 network options = Some this →
    network_ this = network ∧
    input_format_ this = caps_input_format (GetCapabilities network) ∧
    softmax_policy_temperature_ this = 1 / kPolicySoftmaxTemp options ∧
    EncodeHistoryFill ndebug (kHistoryFill options)
      = Some (fill_empty_history_ this) ∧
    backend_opts_ this = kBackendOptionsId options ∧
    weights_path_ this = kWeightsId options.
Proof.
  rewrite !NetworkAsBackend_new_eq. split; [done|].
  intros this Hnew.
  destruct (EncodeHistoryFill ndebug (kHistoryFill options)) as [fill|];
    by simplify_eq/=.
Qed.

Lemma reconfigured_twice this options fill :
  reconfigured (reconfigured this options fill) options fill =
    reconfigured this options fill.
Proof. by destruct this. Qed.

Lemma identity_changed_reconfigured this options' fill options :
  identity_changed (reconfigured this options' fill) options ↔
  identity_changed this options.
Proof. done. Qed.

(** Reconfiguring is idempotent, and a backend just built answers
    [UPDATE_OK] to the options it was built from and stays as it is. *)
Theorem UpdateConfiguration_idempotent ndebug :
  (∀ this options this' r,
     UpdateConfiguration ndebug this options = Some (this', r) →
     UpdateConfiguration ndebug this' options = Some (this', r)) ∧
  (∀ storage network options this,
     NetworkAsBackend_new ndebug storage network options = Some this →
     UpdateConfiguration ndebug this options = Some (this, UPDATE_OK)).
Proof.
  split.
  - intros this options this' r Hrun.
    apply UpdateConfiguration_inv in Hrun
      as [(Hch & -> & ->)|(Hsame & -> & fill & Hfill & ->)].
    + by apply UpdateConfiguration_restart.
    + rewrite UpdateConfiguration_in_place
        by (by rewrite identity_changed_reconfigured).
      rewrite Hfill. simpl. by rewrite reconfigured_twice.
  - intros storage network options this Hnew.
    rewrite NetworkAsBackend_new_eq in Hnew.
    destruct (EncodeHistoryFill ndebug (kHistoryFill options)) as [fill|]
      eqn:Hfill; simplify_eq/=.
    rewrite UpdateConfiguration_in_place.
    + by rewrite Hfill.
    + unfold identity_changed. simpl. tauto.
Qed.

(** An in-place update overwrites the one before it: after a successful
    update to [options1], updating to [options2] in place gives the backend
    that updating to [options2] alone gives. *)
Theorem UpdateConfiguration_last_wins ndebug this options1 this1
    options2 this2 :
  UpdateConfiguration ndebug this options1 = Some (this1, UPDATE_OK) →
  UpdateConfiguration ndebug this1 options2 = Some (this2, UPDATE_OK) →
  UpdateConfiguration ndebug this options2 = Some (this2, UPDATE_OK).
Proof.
  intros H1 H2.
  apply UpdateConfiguration_inv in H1
    as [(_ & _ & ?)|(_ & _ & fill1 & _ & ->)]; [done|].
  apply UpdateConfiguration_inv in H2
    as [(_ & _ & ?)|(Hsame & _ & fill2 & Hfill2 & ->)]; [done|].
  rewrite identity_changed_reconfigured in Hsame.
  rewrite UpdateConfiguration_in_place, Hfill2 by done. simpl.
  by destruct this.
Qed.

Lemma UpdateConfigurations_keeps ndebug updates : ∀ this this',
  UpdateConfigurations ndebug this updates = Some this' →
  network_ this' = network_ this ∧ attrs_ this' = attrs_ this ∧
  input_format_ this' = input_format_ this ∧
  backend_opts_ this' = backend_opts_ this ∧
  weights_path_ this' = weights_path_ this.
Proof.
  induction updates as [|options updates IH]; intros this this' Hrun.
  - by simplify_eq/=.
  - simpl in Hrun.
    destruct (UpdateConfiguration ndebug this options) as [[mid r]|] eqn:Hupd;
      simplify_eq/=.
    apply UpdateConfiguration_keeps in Hupd as (? & ? & ? & ? & ?).
    apply IH in Hrun as (? & ? & ? & ? & ?).
    repeat split; congruence.
Qed.

(** No run of reconfigurations changes what the backend answers to a
    change of identity: options that name another network get
    [NEED_RESTART] after the run exactly when they got it before, and the
    network, its attributes and the input format stay the same. *)
Theorem UpdateConfigurations_keep_identity ndebug this updates this' :
  UpdateConfigurations ndebug this updates = Some this' →
  network_ this' = network_ this ∧
  GetAttributes this' = GetAttributes this ∧
  input_format_ this' = input_format_ this ∧
  ∀ options,
    UpdateConfiguration ndebug this' options = Some (this', NEED_RESTART) ↔
    UpdateConfiguration ndebug this options = Some (this, NEED_RESTART).
Proof.
  intros Hrun.
  apply UpdateConfigurations_keeps in Hrun as (Hn & Ha & Hf & Ho & Hw).
  repeat split; try done.
  - intros Hrestart.
    apply UpdateConfiguration_inv in Hrestart
      as [(Hch & _ & _)|(_ & ? & _)]; [|done].
    apply UpdateConfiguration_restart.
    unfold identity_changed in *. by rewrite <- Ho, <- Hw.
  - intros Hrestart.
    apply UpdateConfiguration_inv in Hrestart
      as [(Hch & _ & _)|(_ & ? & _)]; [|done].
    apply UpdateConfiguration_restart.
    unfold identity_changed in *. by rewrite Ho, Hw.
Qed.

End MoreConfiguration.

(** ** The entry store behind [AddInput] *)

Section MoreAddInput.
Context `{!Chess, !Encoder, !FastMath}.
Context {Loc : Type} `{!EqDecision Loc}.

Implicit Types this : NetworkAsBackendComputation Loc.

Lemma AddInput_full backend this position result :
  (capacity (entries_ this) ≤ size (entries_ this))%nat →
  AddInput backend this position result = None.
Proof.
  intros Hfull. unfold AddInput, emplace_back.
  destruct (EncodePositionForNN _ _ _ _) as [planes t].
  by rewrite decide_False by lia.
Qed.

(** [AddInput] succeeds exactly while the store has room.  It then
    appends one entry and leaves the earlier ones, the capacity and the
    network computation as they are; the new entry holds the encoded
    planes, the legal moves, the caller's slots and the transform the
    encoder chose (not the 0 it is constructed with). *)
Theorem AddInput_appends backend this position result :
  ((size (entries_ this) < capacity (entries_ this))%nat →
   ∃ this',
     AddInput backend this position result = Some (this', ENQUEUED_FOR_EVAL) ∧
     UsedBatchSize this' = S (UsedBatchSize this) ∧
     computation_ this' = computation_ this ∧
     capacity (entries_ this') = capacity (entries_ this) ∧
     (∀ i e, items (entries_ this) !! i = Some e →
             items (entries_ this') !! i = Some e) ∧
     items (entries_ this') !! UsedBatchSize this =
       Some {| input :=
                 fst (EncodePositionForNN (input_format_ backend)
                        (pos position) 8 (fill_empty_history_ backend));
               entry_legal_moves := legal_moves position;
               result := result;
               transform :=
                 snd (EncodePositionForNN (input_format_ backend)
                        (pos position) 8 (fill_empty_history_ backend)) |}) ∧
  ((capacity (entries_ this) ≤ size (entries_ this))%nat →
   AddInput backend this position result = None).
Proof.
  split; [|apply AddInput_full].
  intros Hroom. rewrite AddInput_eq by done.
  eexists. split; [reflexivity|]. simpl.
  unfold UsedBatchSize, size. simpl.
  split; [rewrite length_app; simpl; lia|].
  split; [done|]. split; [done|]. split.
  - intros i e He. rewrite lookup_app_l; [done|].
    by apply lookup_lt_Some in He.
  - by rewrite list_lookup_middle.
Qed.

Lemma AddInputs_overflow backend requests : ∀ this,
  (size (entries_ this) ≤ capacity (entries_ this))%nat →
  (capacity (entries_ this) < size (entries_ this) + length requests)%nat →
  AddInputs backend this requests = None.
Proof.
  induction requests as [|[position result] requests IH];
    intros this Hinv Hover.
  - simpl in Hover. lia.
  - simpl.
    destruct (decide (size (entries_ this) < capacity (entries_ this))%nat)
      as [Hroom|Hfull].
    + rewrite AddInput_eq by done. simpl. apply IH.
      * unfold size in *. simpl. rewrite length_app. simpl. lia.
      * unfold size in *. simpl in *. rewrite length_app. simpl. lia.
    + rewrite AddInput_full by lia. done.
Qed.

(** A computation created on a backend that the constructor built takes
    1024 inputs and no more: enqueueing [n] requests succeeds, with batch
    size [n], exactly when [n ≤ 1024]. *)
Theorem AddInputs_capacity ndebug backend
    (requests : list (EvalPosition * EvalResultPtr Loc)) :
  configured ndebug backend →
  ((length requests ≤ 1024)%nat →
   ∃ this,
     AddInputs backend (CreateComputation backend) requests = Some this ∧
     UsedBatchSize this = length requests) ∧
  ((1024 < length requests)%nat →
   AddInputs backend (CreateComputation backend) requests = None).
Proof.
  intros Hconf. apply configured_attrs in Hconf.
  assert (capacity (entries_ (CreateComputation (Loc := Loc) backend))
          = 1024%nat) as Hcap.
  { simpl. rewrite Hconf. simpl. lia. }
  assert (size (entries_ (CreateComputation (Loc := Loc) backend)) = 0%nat)
    as Hsize by done.
  revert Hcap. generalize 1024%nat. intros cap Hcap.
  split.
  - intros Hlen. rewrite AddInputs_eq by (rewrite Hcap, Hsize; lia).
    eexists. split; [reflexivity|].
    unfold UsedBatchSize, size. simpl. by rewrite length_fmap.
  - intros Hlen. apply AddInputs_overflow; rewrite Hcap, Hsize; lia.
Qed.

End MoreAddInput.

(** ** Where [SoftmaxPolicy] and [ComputeBlocking] store *)

Section MoreSoftmax.
Context `{!Chess, !Encoder, !FastMath}.
Context {Loc : Type} `{!EqDecision Loc}.

Implicit Types this : NetworkAsBackendComputation Loc.
Implicit Types e : Entry Loc.
Implicit Types h : Heap Loc.

Lemma copy_raw_overflow network batch idx t (dst : list Loc) moves :
  ∀ counter max_p h,
    (counter ≤ length dst)%nat →
    (length dst < counter + length moves)%nat →
    copy_raw network batch idx t dst moves counter max_p h = None.
Proof.
  induction moves as [|mv moves IH]; intros counter max_p h Hc Hover.
  - simpl in Hover. lia.
  - simpl. destruct (dst !! counter) as [l|] eqn:Hl; [|done].
    apply lookup_lt_Some in Hl. simpl in *. apply IH; lia.
Qed.


Lemma copy_raw_frame network batch idx t (dst : list Loc) moves :
  ∀ counter max_p h mx h' l,
    copy_raw network batch idx t dst moves counter max_p h = Some (mx, h') →
    l ∉ dst → h' l = h l.
Proof.
  induction moves as [|mv moves IH]; intros counter max_p h mx h' l Hrun Hl.
  - by simplify_eq/=.
  - simpl in Hrun. destruct (dst !! counter) as [l0|] eqn:Hl0; simplify_eq/=.
    rewrite (IH _ _ _ _ _ _ Hrun Hl).
    apply fn_lookup_insert_ne. intros ->.
    apply Hl. by eapply list_elem_of_lookup_2.
Qed.

Lemma exp_total_frame max_p temperature (dst : list Loc) : ∀ total h l,
  l ∉ dst → snd (exp_total max_p temperature dst total h) l = h l.
Proof.
  induction dst as [|l0 dst IH]; intros total h l Hl; [done|].
  apply not_elem_of_cons in Hl as [Hne Hl]. simpl.
  rewrite IH by done. by apply fn_lookup_insert_ne.
Qed.

Lemma scale_all_frame scale (dst : list Loc) : ∀ h l,
  l ∉ dst → scale_all scale dst h l = h l.
Proof.
  induction dst as [|l0 dst IH]; intros h l Hl; [done|].
  apply not_elem_of_cons in Hl as [Hne Hl]. simpl.
  rewrite IH by done. by apply fn_lookup_insert_ne.
Qed.

Lemma SoftmaxPolicy_frame backend this (dst : list Loc) computation idx
    h h' l :
  SoftmaxPolicy backend this dst computation idx h = Some h' →
  l ∉ dst → h' l = h l.
Proof.
  unfold SoftmaxPolicy. intros Hrun Hl.
  destruct (items (entries_ this) !! idx) as [e|]; simplify_eq/=.
  destruct (copy_raw _ _ _ _ _ _ _ _ _) as [[mx h1]|] eqn:Hcopy;
    simplify_eq/=.
  pose proof (copy_raw_frame _ _ _ _ _ _ _ _ _ _ _ l Hcopy Hl) as Hcopied.
  destruct dst as [|l0 dst]; simplify_eq/=; [done|].
  destruct mx as [mx|]; simplify_eq/=.
  apply not_elem_of_cons in Hl as [Hne Hl].
  destruct (exp_total mx _ dst _ _) as [total h2] eqn:Hexp. simplify_eq/=.
  rewrite scale_all_frame by done.
  rewrite fn_lookup_insert_ne by done.
  pose proof (exp_total_frame mx (softmax_policy_temperature_ backend) dst
                (0 + FastExp ((h1 l0 - mx)
                              * softmax_policy_temperature_ backend))
                (<[l0 := FastExp ((h1 l0 - mx)
                                  * softmax_policy_temperature_ backend)]> h1)
                l Hl) as Hexped.
  rewrite Hexp in Hexped. simpl in Hexped. rewrite Hexped.
  by rewrite fn_lookup_insert_ne.
Qed.

Lemma store_if_lookup i s (ptr : option Loc) v
    (st : Heap Loc * list (WriteEvent Loc)) l :
  fst (store_if i s ptr v st) l =
    if decide (ptr = Some l) then v else fst st l.
Proof.
  destruct ptr as [l0|]; simpl.
  - destruct (decide (Some l0 = Some l)) as [Heq|Hne].
    + simplify_eq. apply fn_lookup_insert.
    + apply fn_lookup_insert_ne. congruence.
  - done.
Qed.

Lemma not_elem_of_slot_addresses (r : EvalResultPtr Loc) l :
  l ∉ slot_addresses r ↔
  q r ≠ Some l ∧ d r ≠ Some l ∧ m r ≠ Some l ∧ l ∉ p r.
Proof.
  unfold slot_addresses. rewrite !not_elem_of_app.
  assert (∀ o : option Loc, l ∉ option_list o ↔ o ≠ Some l) as Hopt.
  { intros [l0|]; simpl.
    - rewrite not_elem_of_cons. split.
      + intros [Hne _] ?. by simplify_eq.
      + intros Hne. split; [congruence|apply not_elem_of_nil].
    - split; [done|]. intros _. apply not_elem_of_nil. }
  by rewrite !Hopt.
Qed.

Lemma distribute_frame backend this computation i e
    (st st' : Heap Loc * list (WriteEvent Loc)) l :
  items (entries_ this) !! i = Some e →
  distribute backend this computation i st = Some st' →
  l ∉ slot_addresses (result e) → fst st' l = fst st l.
Proof.
  intros He Hrun Hl. unfold distribute in Hrun. rewrite He in Hrun.
  simpl in Hrun.
  apply not_elem_of_slot_addresses in Hl as (Hq & Hd & Hm & Hp).
  set (st3 := store_if i SlotM _ _ _) in Hrun.
  assert (fst st3 l = fst st l) as H3.
  { unfold st3. rewrite !store_if_lookup. by rewrite !decide_False. }
  destruct (p (result e)) as [|l0 dst0] eqn:Ep; simplify_eq/=; [done|].
  destruct (SoftmaxPolicy backend this (l0 :: dst0) computation i (fst st3))
    as [h'|] eqn:Hsoft; simplify_eq/=.
  rewrite <- H3. by eapply SoftmaxPolicy_frame.
Qed.

Lemma distribute_loop_frame backend this computation indices :
  ∀ (st st' : Heap Loc * list (WriteEvent Loc)) l,
    distribute_loop backend this computation indices st = Some st' →
    (∀ i e, i ∈ indices → items (entries_ this) !! i = Some e →
            l ∉ slot_addresses (result e)) →
    fst st' l = fst st l.
Proof.
  induction indices as [|i indices IH]; intros st st' l Hrun Hl.
  - by simplify_eq/=.
  - simpl in Hrun.
    destruct (distribute backend this computation i st) as [st1|] eqn:Hstep;
      simplify_eq/=.
    rewrite (IH _ _ l Hrun).
    + destruct (items (entries_ this) !! i) as [e|] eqn:He.
      * eapply distribute_frame; [done..|]. apply (Hl i); [by left|done].
      * unfold distribute in Hstep. by rewrite He in Hstep.
    + intros j e Hj. apply Hl. by right.
Qed.


Lemma NoDup_slot_addresses (r : EvalResultPtr Loc) :
  NoDup (slot_addresses r) →
  (∀ l, q r = Some l → d r ≠ Some l ∧ m r ≠ Some l ∧ l ∉ p r) ∧
  (∀ l, d r = Some l → m r ≠ Some l ∧ l ∉ p r) ∧
  (∀ l, m r = Some l → l ∉ p r) ∧
  NoDup (p r).
Proof.
  unfold slot_addresses. intros Hnd.
  apply NoDup_app in Hnd as (_ & Hq & Hnd).
  apply NoDup_app in Hnd as (_ & Hd & Hnd).
  apply NoDup_app in Hnd as (_ & Hm & Hnd).
  split; [|split; [|split; [|done]]].
  - intros l El.
    assert (l ∈ option_list (q r)) as Hin by (rewrite El; by left).
    split; [|split].
    + intros Hd'. apply (Hq l Hin).
      rewrite Hd'. apply elem_of_app. left. by left.
    + intros Hm'. apply (Hq l Hin).
      rewrite Hm', !elem_of_app. right. left. by left.
    + intros Hp. apply (Hq l Hin). rewrite !elem_of_app. by do 2 right.
  - intros l El.
    assert (l ∈ option_list (d r)) as Hin by (rewrite El; by left).
    split.
    + intros Hm'. apply (Hd l Hin).
      rewrite Hm', !elem_of_app. left. by left.
    + intros Hp. apply (Hd l Hin). rewrite !elem_of_app. by right.
  - intros l El Hp. apply (Hm l); [rewrite El; by left|done].
Qed.

Lemma slots_hold_frame backend batch i e h h' :
  slots_hold backend batch i e h →
  (∀ l, l ∈ slot_addresses (result e) → h' l = h l) →
  slots_hold backend batch i e h'.
Proof.
  intros (Hq & Hd & Hm & Hp) Hsame. unfold slot_addresses in Hsame.
  repeat split.
  - intros l El. rewrite Hsame; [by apply Hq|].
    rewrite El. apply elem_of_app. left. by left.
  - intros l El. rewrite Hsame; [by apply Hd|].
    rewrite El, !elem_of_app. right. left. by left.
  - intros l El. rewrite Hsame; [by apply Hm|].
    rewrite El, !elem_of_app. do 2 right. left. by left.
  - rewrite <- Hp. apply list_fmap_ext. intros j l Hl. apply Hsame.
    rewrite !elem_of_app. do 3 right. by eapply list_elem_of_lookup_2.
Qed.

Lemma distribute_post backend this computation i e
    (st : Heap Loc * list (WriteEvent Loc)) :
  items (entries_ this) !! i = Some e →
  policy_span_ok (entry_legal_moves e) (p (result e)) →
  NoDup (slot_addresses (result e)) →
  ∃ st',
    distribute backend this computation i st = Some st' ∧
    slots_hold backend computation i e (fst st').
Proof.
  intros He Hok Hnd. unfold distribute. rewrite He. simpl.
  apply NoDup_slot_addresses in Hnd as (Hq & Hd & Hm & Hp).
  set (st3 := store_if i SlotM _ _ _).
  assert (∀ l, q (result e) = Some l →
               fst st3 l = GetQVal (network_ backend) computation i) as Hq3.
  { intros l El. destruct (Hq l El) as (? & ? & _).
    unfold st3. rewrite !store_if_lookup.
    rewrite (decide_False (P := m (result e) = Some l)) by done.
    rewrite (decide_False (P := d (result e) = Some l)) by done.
    by rewrite decide_True. }
  assert (∀ l, d (result e) = Some l →
               fst st3 l = GetDVal (network_ backend) computation i) as Hd3.
  { intros l El. destruct (Hd l El) as (? & _).
    unfold st3. rewrite !store_if_lookup.
    rewrite (decide_False (P := m (result e) = Some l)) by done.
    by rewrite decide_True. }
  assert (∀ l, m (result e) = Some l →
               fst st3 l = GetMVal (network_ backend) computation i) as Hm3.
  { intros l El. unfold st3. rewrite !store_if_lookup.
    by rewrite decide_True. }
  unfold slots_hold.
  destruct (p (result e)) as [|l0 dst0] eqn:Ep.
  - exists st3. done.
  - destruct Hok as [Hnil|[_ Hlen]]; [done|].
    destruct (SoftmaxPolicy_normalised backend this (l0 :: dst0) computation
                i e (fst st3) He) as (h' & Hrun & Hvals & Hframe);
      try done.
    rewrite Hrun. simpl. eexists. split; [done|]. simpl.
    repeat split; [| | |done].
    + intros l El. rewrite Hframe; [by apply Hq3|]. by apply (Hq l El).
    + intros l El. rewrite Hframe; [by apply Hd3|]. by apply (Hd l El).
    + intros l El. rewrite Hframe; [by apply Hm3|]. by apply (Hm l El).
Qed.

Lemma distribute_loop_post backend this computation
    (es : list (Entry Loc)) :
  ∀ k (st : Heap Loc * list (WriteEvent Loc)),
    (∀ j e, es !! j = Some e →
            items (entries_ this) !! (k + j)%nat = Some e ∧
            policy_span_ok (entry_legal_moves e) (p (result e))) →
    NoDup (concat ((λ e, slot_addresses (result e)) <$> es)) →
    ∃ st',
      distribute_loop backend this computation (seq k (length es)) st
        = Some st' ∧
      (∀ j e, es !! j = Some e →
              slots_hold backend computation (k + j) e (fst st')) ∧
      (∀ l, l ∉ concat ((λ e, slot_addresses (result e)) <$> es) →
            fst st' l = fst st l).
Proof.
  induction es as [|e es IH]; intros k st Hes Hnd.
  - exists st. simpl. by repeat split.
  - simpl in *.
    apply NoDup_app in Hnd as (Hnd_e & Hdisj & Hnd_es).
    destruct (Hes 0%nat e eq_refl) as [He Hok].
    rewrite Nat.add_0_r in He.
    destruct (distribute_post backend this computation k e st He Hok Hnd_e)
      as (st1 & Hstep & Hpost).
    rewrite Hstep. simpl.
    destruct (IH (S k) st1) as (st' & Hrun & Hposts & Hframe); [|done|].
    { intros j e' Hj. specialize (Hes (S j) e' Hj).
      by replace (S k + j)%nat with (k + S j)%nat by lia. }
    exists st'. split; [done|]. split.
    + intros [|j] e' Hj; simplify_eq/=.
      * rewrite Nat.add_0_r. eapply slots_hold_frame; [done|].
        intros l Hl. apply Hframe. by apply Hdisj.
      * replace (k + S j)%nat with (S k + j)%nat by lia. by apply Hposts.
    + intros l Hl. apply not_elem_of_app in Hl as [Hl_e Hl_es].
      rewrite Hframe by done. by eapply distribute_frame.
Qed.

(** What the caller finds after [ComputeBlocking] when no two of the
    addresses handed over with the requests coincide and every policy span
    given has one element per legal move: the call returns, and behind
    every pointer of entry [i] is the network's output at index [i] of the
    batch (q, d, m), in every span the normalised policy of the entry's
    legal moves.  Nothing a later entry stores disturbs an earlier one. *)
Theorem ComputeBlocking_results backend this h :
  (∀ i e, items (entries_ this) !! i = Some e →
          policy_span_ok (entry_legal_moves e) (p (result e))) →
  NoDup (concat ((λ e, slot_addresses (result e))
                   <$> items (entries_ this))) →
  ∃ this' h' log,
    ComputeBlocking backend this h = Some (this', h', log) ∧
    computation_ this' =
      computation_ this ++ (input <$> items (entries_ this)) ∧
    ∀ i e, items (entries_ this) !! i = Some e →
           slots_hold backend (computation_ this') i e h'.
Proof.
  intros Hok Hnd. unfold ComputeBlocking. rewrite submit_inputs.
  set (batch := computation_ this ++ (input <$> items (entries_ this))).
  destruct (distribute_loop_post backend
              {| computation_ := batch; entries_ := entries_ this |}
              batch (items (entries_ this)) 0 (h, []))
    as ([h' log] & Hrun & Hposts & _); [|done|].
  { intros j e Hj. simpl. eauto. }
  unfold size. simpl in *. rewrite Hrun. simpl.
  exists {| computation_ := batch; entries_ := entries_ this |}, h', log.
  split; [done|]. split; [done|].
  intros i e He. by apply (Hposts i e).
Qed.

End MoreSoftmax.

(** ** The normalised policy as a distribution *)

Section MoreNormalisation.
Context `{!Chess, !Encoder, !FastMath}.
Context {Loc : Type} `{!EqDecision Loc}.

Implicit Types this : NetworkAsBackendComputation Loc.

Lemma sumQ_ge_elem (l : list Q) (x : Q) :
  Forall (λ v, 0 <= v) l → x ∈ l → x <= sumQ l.
Proof.
  induction 1 as [|v l Hv Hl IH]; intros Hx.
  - by apply elem_of_nil in Hx.
  - pose proof (sumQ_nonneg _ Hl) as Hsum.
    rewrite sumQ_cons. apply elem_of_cons in Hx as [->|Hx].
    + lra.
    + specialize (IH Hx). lra.
Qed.

Lemma exponentials_total_ge_one temperature raws :
  0 <= temperature →
  (∀ x, x <= 0 → 0 <= FastExp x) →
  (∀ x, x == 0 → FastExp x == 1) →
  raws ≠ [] →
  1 <= sumQ (exponentials temperature raws).
Proof.
  intros Ht Hnn Hone Hraws.
  pose proof (exponentials_nonneg _ raws Ht Hnn) as Hexps.
  destruct raws as [|r0 rs]; [done|]. unfold exponentials in *.
  destruct (maximum_spec rs r0) as (_ & _ & Hin).
  set (f := λ raw, FastExp ((raw - maximum r0 rs) * temperature)) in *.
  assert (f (maximum r0 rs) ∈ f <$> r0 :: rs) as Hmem
    by by apply list_elem_of_fmap_2.
  pose proof (sumQ_ge_elem _ _ Hexps Hmem) as Hle.
  assert (f (maximum r0 rs) == 1) as Hf by (apply Hone; ring).
  by rewrite Hf in Hle.
Qed.

Lemma normalised_bounds temperature raws :
  0 <= temperature →
  (∀ x, x <= 0 → 0 <= FastExp x) →
  (∀ x, x == 0 → FastExp x == 1) →
  raws ≠ [] →
  sumQ (normalised temperature raws) == 1 ∧
  Forall (λ v, 0 <= v ∧ v <= 1) (normalised temperature raws).
Proof.
  intros Ht Hnn Hone Hraws.
  pose proof (exponentials_total_ge_one _ _ Ht Hnn Hone Hraws) as Htotal.
  pose proof (exponentials_nonneg _ raws Ht Hnn) as Hexps.
  assert (0 < sumQ (exponentials temperature raws)) as Hpos by lra.
  split.
  - rewrite (sumQ_Forall2 _ _ (normalised_softmax temperature raws)).
    by apply softmax_sums_to_one.
  - unfold normalised. apply ltb_lt in Hpos as Hltb. rewrite Hltb.
    apply Forall_fmap, Forall_forall. intros v Hv. simpl.
    pose proof (sumQ_ge_elem _ _ Hexps Hv) as Hle.
    assert (0 <= v) as Hv0.
    { by apply (proj1 (Forall_forall _ _) Hexps). }
    assert (v * (1 / sumQ (exponentials temperature raws))
            == v / sumQ (exponentials temperature raws)) as ->
      by (field; lra).
    split.
    + apply Qle_shift_div_l; [done|]. lra.
    + apply Qle_shift_div_r; [done|]. lra.
Qed.


Lemma normalised_lookup temperature raws i raw :
  raws !! i = Some raw →
  ∃ mx scale,
    0 <= scale ∧
    normalised temperature raws !! i
      = Some (FastExp ((raw - mx) * temperature) * scale).
Proof.
  intros Hi. unfold normalised, exponentials.
  destruct raws as [|r0 rs]; [done|].
  set (total := sumQ _).
  exists (maximum r0 rs), (if Float.ltb 0 total then 1 / total else 1).
  split.
  - destruct (Float.ltb 0 total) eqn:E; [|lra].
    apply ltb_lt in E. unfold Qdiv. rewrite Qmult_1_l.
    apply Qinv_le_0_compat. lra.
  - rewrite !list_lookup_fmap, Hi. done.
Qed.

(** The normalisation keeps the order of the raw scores when the
    exponential is monotone and the temperature not negative: a legal move
    whose raw score is not below that of another is given a probability
    that is not below the other's. *)
Theorem SoftmaxPolicy_monotone backend this (dst : list Loc) computation
    idx e (h : Heap Loc) :
  items (entries_ this) !! idx = Some e →
  dst ≠ [] → NoDup dst → length dst = length (entry_legal_moves e) →
  0 <= softmax_policy_temperature_ backend →
  (∀ x y, x <= y → FastExp x <= FastExp y) →
  ∃ h',
    SoftmaxPolicy backend this dst computation idx h = Some h' ∧
    ∀ i j mi mj li lj,
      entry_legal_moves e !! i = Some mi →
      entry_legal_moves e !! j = Some mj →
      dst !! i = Some li → dst !! j = Some lj →
      GetPVal (network_ backend) computation idx
              (MoveToNNIndex mi (transform e))
        <= GetPVal (network_ backend) computation idx
                   (MoveToNNIndex mj (transform e)) →
      h' li <= h' lj.
Proof.
  intros He Hne Hnd Hlen Ht Hmono.
  destruct (SoftmaxPolicy_normalised backend this dst computation idx e h
              He Hne Hnd Hlen) as (h' & Hrun & Hvals & _).
  exists h'. split; [done|].
  intros i j mi mj li lj Hmi Hmj Hli Hlj Hraw.
  set (t := softmax_policy_temperature_ backend) in *.
  set (raws := raw_scores (network_ backend) computation idx e) in *.
  assert (∀ k mv l, entry_legal_moves e !! k = Some mv → dst !! k = Some l →
            normalised t raws !! k = Some (h' l)) as Hat.
  { intros k mv l _ Hl. by rewrite <- Hvals, list_lookup_fmap, Hl. }
  pose proof (Hat i mi li Hmi Hli) as Hi.
  pose proof (Hat j mj lj Hmj Hlj) as Hj.
  unfold normalised, exponentials in Hi, Hj.
  assert (raws !! i = Some (GetPVal (network_ backend) computation idx
                              (MoveToNNIndex mi (transform e)))) as Ri
    by (unfold raws, raw_scores; by rewrite list_lookup_fmap, Hmi).
  assert (raws !! j = Some (GetPVal (network_ backend) computation idx
                              (MoveToNNIndex mj (transform e)))) as Rj
    by (unfold raws, raw_scores; by rewrite list_lookup_fmap, Hmj).
  destruct raws as [|r0 rs] eqn:Eraws; [done|]. rewrite <- Eraws in *.
  rewrite !list_lookup_fmap, Ri in Hi. rewrite !list_lookup_fmap, Rj in Hj.
  simpl in Hi, Hj. injection Hi as <-. injection Hj as <-.
  apply Qmult_le_compat_r.
  - apply Hmono. apply Qmult_le_compat_r; [lra|done].
  - set (total := sumQ _).
    destruct (Float.ltb 0 total) eqn:E; [|lra].
    apply ltb_lt in E. unfold Qdiv. rewrite Qmult_1_l.
    apply Qinv_le_0_compat. lra.
Qed.

Lemma sumQ_all_one (l : list Q) :
  Forall (λ v, v == 1) l → sumQ l == inject_Z (Z.of_nat (length l)).
Proof.
  induction 1 as [|v l Hv Hl IH]; [done|].
  rewrite sumQ_cons, Hv, IH. simpl length.
  rewrite Nat2Z.inj_succ, <- Z.add_1_l, inject_Z_plus. done.
Qed.


Lemma ltb_shift (a b a' b' c : Q) :
  a' == a + c → b' == b + c → Float.ltb a' b' = Float.ltb a b.
Proof.
  intros Ha Hb. destruct (Float.ltb a b) eqn:E.
  - apply ltb_lt in E. apply ltb_lt. lra.
  - apply ltb_ge in E. apply ltb_ge. lra.
Qed.

Lemma maximum_shift (c : Q) (rs rs' : list Q) :
  Forall2 (λ a b, b == a + c) rs rs' →
  ∀ r0 r0', r0' == r0 + c → maximum r0' rs' == maximum r0 rs + c.
Proof.
  unfold maximum.
  induction 1 as [|r r' rs rs' Hr Hrs IH]; intros r0 r0' Hr0; [done|].
  simpl. apply IH. unfold Float.std_max.
  rewrite (ltb_shift r0 r r0' r' c) by done.
  by destruct (Float.ltb r0 r).
Qed.

Lemma normalised_shift temperature (c : Q) (raws raws' : list Q) :
  (∀ x y, x == y → FastExp x == FastExp y) →
  Forall2 (λ a b, b == a + c) raws raws' →
  Forall2 Qeq (normalised temperature raws') (normalised temperature raws).
Proof.
  intros Hproper Hraws. unfold normalised.
  assert (Forall2 Qeq (exponentials temperature raws')
                      (exponentials temperature raws)) as Hexps.
  { unfold exponentials.
    destruct Hraws as [|r0 r0' rs rs' Hr0 Hrs]; [constructor|].
    pose proof (maximum_shift c rs rs' Hrs r0 r0' Hr0) as Hmax.
    apply Forall2_fmap, Forall2_flip.
    assert (Forall2 (λ a b, b == a + c) (r0 :: rs) (r0' :: rs')) as Hall
      by by constructor.
    eapply Forall2_impl; [exact Hall|].
    intros a b Hab. apply Hproper. simpl in Hab. rewrite Hab, Hmax. ring. }
  pose proof (sumQ_Forall2 _ _ Hexps) as Htotal.
  set (total' := sumQ (exponentials temperature raws')) in *.
  set (total := sumQ (exponentials temperature raws)) in *.
  assert (Float.ltb 0 total' = Float.ltb 0 total) as Hltb.
  { destruct (Float.ltb 0 total) eqn:E.
    - apply ltb_lt in E. apply ltb_lt. lra.
    - apply ltb_ge in E. apply ltb_ge. lra. }
  rewrite Hltb. apply Forall2_fmap.
  eapply Forall2_impl; [exact Hexps|]. simpl. intros v' v Hv.
  destruct (Float.ltb 0 total) eqn:E.
  - apply ltb_lt in E. rewrite Hv, Htotal. done.
  - by rewrite Hv.
Qed.

(** Subtracting the greatest raw score makes the policy independent of a
    common offset: two networks whose raw policy outputs differ by the
    same constant at every index give, under the same temperature, the
    same normalised policy (for an exponential that respects equality). *)
Theorem SoftmaxPolicy_shift backend1 backend2 this (dst : list Loc)
    computation idx e (h : Heap Loc) (c : Q) :
  items (entries_ this) !! idx = Some e →
  dst ≠ [] → NoDup dst → length dst = length (entry_legal_moves e) →
  softmax_policy_temperature_ backend2
    = softmax_policy_temperature_ backend1 →
  (∀ x y, x == y → FastExp x == FastExp y) →
  (∀ k, GetPVal (network_ backend2) computation idx k
        == GetPVal (network_ backend1) computation idx k + c) →
  ∃ h1 h2,
    SoftmaxPolicy backend1 this dst computation idx h = Some h1 ∧
    SoftmaxPolicy backend2 this dst computation idx h = Some h2 ∧
    Forall2 Qeq (h2 <$> dst) (h1 <$> dst).
Proof.
  intros He Hne Hnd Hlen Htemp Hproper Hshift.
  destruct (SoftmaxPolicy_normalised backend1 this dst computation idx e h
              He Hne Hnd Hlen) as (h1 & Hrun1 & Hvals1 & _).
  destruct (SoftmaxPolicy_normalised backend2 this dst computation idx e h
              He Hne Hnd Hlen) as (h2 & Hrun2 & Hvals2 & _).
  exists h1, h2. split; [done|]. split; [done|].
  rewrite Hvals1, Hvals2, Htemp.
  apply (normalised_shift _ c); [done|].
  unfold raw_scores. apply Forall2_fmap, Forall_Forall2_diag, Forall_forall.
  intros mv _. simpl. apply Hshift.
Qed.

End MoreNormalisation.

(** ** More on the instamove searches *)

Section MoreTelemetry.
Context `{!Chess, !CMath}.

Lemma round_bound (x : Q) :
  - (1 # 2) <= inject_Z (Float.round x) - x ∧
  inject_Z (Float.round x) - x <= 1 # 2.
Proof.
  unfold Float.round. destruct (Qle_bool 0 x).
  - pose proof (Qfloor_le (x + (1 # 2))) as Hle.
    pose proof (Qlt_floor (x + (1 # 2))) as Hlt.
    rewrite inject_Z_plus in Hlt. change (inject_Z 1) with 1 in Hlt.
    revert Hle Hlt. generalize (inject_Z (Qfloor (x + (1 # 2)))).
    intros f Hle Hlt. split; lra.
  - pose proof (Qfloor_le (- x + (1 # 2))) as Hle.
    pose proof (Qlt_floor (- x + (1 # 2))) as Hlt.
    rewrite inject_Z_plus in Hlt. change (inject_Z 1) with 1 in Hlt.
    rewrite inject_Z_opp.
    revert Hle Hlt. generalize (inject_Z (Qfloor (- x + (1 # 2)))).
    intros f Hle Hlt. split; lra.
Qed.

Lemma permille_total (a b c : Q) :
  a + b + c == 1000 →
  (999 ≤ Float.to_int a + Float.to_int b + Float.to_int c ≤ 1001)%Z.
Proof.
  intros Hsum. unfold Float.to_int.
  destruct (round_bound a) as [Ha1 Ha2].
  destruct (round_bound b) as [Hb1 Hb2].
  destruct (round_bound c) as [Hc1 Hc2].
  set (ra := Float.round a) in *. set (rb := Float.round b) in *.
  set (rc := Float.round c) in *.
  assert (inject_Z 998 < inject_Z (ra + rb + rc) ∧
          inject_Z (ra + rb + rc) < inject_Z 1002) as [Hlow Hhigh].
  { rewrite !inject_Z_plus.
    change (inject_Z 998) with (998 : Q).
    change (inject_Z 1002) with (1002 : Q).
    revert Ha1 Ha2 Hb1 Hb2 Hc1 Hc2.
    generalize (inject_Z ra) (inject_Z rb) (inject_Z rc).
    intros qa qb qc Ha1 Ha2 Hb1 Hb2 Hc1 Hc2. split; lra. }
  rewrite <- Zlt_Qlt in Hlow, Hhigh. lia.
Qed.


(** A position without a legal move (a game that is over) has no best
    move: the policy head indexes the empty move list, whatever the
    backend answers. *)
Theorem PolicyHead_no_legal_move
    (EvaluateBatch : list EvalPosition → list EvalResult)
    (game_state : GameState) (back : Position) :
  list.last (GetPositions game_state) = Some back →
  GenerateLegalMoves back = [] →
  PolicyHead_GetBestMove EvaluateBatch game_state = None.
Proof.
  intros Hback Hmoves. unfold PolicyHead_GetBestMove.
  rewrite Hback. simpl. rewrite Hmoves.
  by destruct (EvaluateBatch _ !! 0%nat).
Qed.

End MoreTelemetry.

Section MoreValueHead.
Context `{!Chess, !CMath, !Backend Score.loc}.

(** Taking back a move restores the history. *)
Hypothesis Pop_Append : ∀ h mv, History_Pop (History_Append h mv) = h.

(** Without a legal move the value head asks for no evaluation and then
    reads the first element of an empty score vector: it has no best move,
    whatever [ComputeBlocking] does. *)
Theorem ValueHead_no_legal_move (game_state : GameState) :
  GenerateLegalMoves (History_Last (History_new (GetPositions game_state)))
    = [] →
  ValueHead_GetBestMove game_state = None.
Proof.
  intros Hmoves. unfold ValueHead_GetBestMove. rewrite Hmoves. simpl.
  by destruct (Backend_ComputeBlocking _ _).
Qed.

Lemma of_heap_lookup (h : Heap Score.loc) (scores : list Score.t) j s :
  Score.of_heap h scores !! j = Some s →
  ∃ s0, scores !! j = Some s0 ∧ Score.mate s = Score.mate s0.
Proof.
  unfold Score.of_heap. rewrite list_lookup_imap.
  destruct (scores !! j) as [s0|]; [|done]. simpl.
  intros [= <-]. eauto.
Qed.

Lemma move_score_mate history mv :
  Score.mate (move_score history mv) =
    match ComputeGameResult (History_Append history mv) with
    | UNDECIDED | DRAW => None
    | _ => Some 1%Z
    end.
Proof.
  unfold move_score. by destruct (ComputeGameResult _).
Qed.

(** A mate in one is always played: when some legal move ends the game
    with a win, the value head returns the first such move, whatever the
    backend evaluates the other moves to, and the thinking info announces
    mate in 1 with neither score nor win/draw/loss figures. *)
Theorem ValueHead_plays_mate (game_state : GameState)
    (c : BackendComputation) (hp : Heap Score.loc) (k : nat) (mv : Move) :
  let history := History_new (GetPositions game_state) in
  let moves := GenerateLegalMoves (History_Last history) in
  moves !! k = Some mv →
  ComputeGameResult (History_Append history mv) ≠ UNDECIDED →
  ComputeGameResult (History_Append history mv) ≠ DRAW →
  (∀ j mv', (j < k)%nat → moves !! j = Some mv' →
     ComputeGameResult (History_Append history mv') = UNDECIDED ∨
     ComputeGameResult (History_Append history mv') = DRAW) →
  Backend_AddInputs Backend_CreateComputation (requests_from history 0 moves)
    = Some c →
  Backend_ComputeBlocking c (Score.to_heap (move_score history <$> moves))
    = Some hp →
  ValueHead_GetBestMove game_state =
    Some (mv,
          [OutputThinkingInfo
             [{| ThinkingInfo.depth := 1;
                 ThinkingInfo.seldepth := 1;
                 ThinkingInfo.nodes := Z.of_nat (length moves);
                 ThinkingInfo.mate := Some 1%Z;
                 ThinkingInfo.score := None;
                 ThinkingInfo.wdl := None |}]]).
Proof.
  intros history moves Hk Hu Hd Hfirst Hadd Hcompute.
  set (scores := move_score history <$> moves) in *.
  set (final := Score.of_heap hp scores).
  assert (∀ j s, final !! j = Some s →
            ∃ mv', moves !! j = Some mv' ∧
                   Score.mate s = Score.mate (move_score history mv'))
    as Hmates.
  { intros j s Hj. apply of_heap_lookup in Hj as (s0 & Hs0 & ->).
    unfold scores in Hs0. rewrite list_lookup_fmap in Hs0.
    destruct (moves !! j) as [mv'|]; simplify_eq/=. eauto. }
  assert (length final = length moves) as Hlen.
  { unfold final, Score.of_heap, scores.
    by rewrite length_imap, length_fmap. }
  assert (is_Some (final !! k)) as [fk Hfk].
  { apply lookup_lt_is_Some. rewrite Hlen. by apply lookup_lt_Some in Hk. }
  assert (Score.mate fk = Some 1%Z) as Hfk_mate.
  { destruct (Hmates k fk Hfk) as (mv' & Hmv' & ->). simplify_eq.
    rewrite move_score_mate.
    by destruct (ComputeGameResult (History_Append history mv)). }
  assert (final ≠ []) as Hfinal by (intros Hnil; by rewrite Hnil in Hfk).
  destruct (min_element_spec _ Hfinal) as (r & Hr & Hmin & Hbefore).
  assert (Score.mate r = Some 1%Z) as Hr_mate.
  { pose proof (Hmin k fk Hfk) as Hlt.
    destruct (Hmates _ r Hr) as (mv' & _ & Hm).
    rewrite move_score_mate in Hm.
    unfold Score.lt in Hlt. rewrite Hfk_mate in Hlt.
    destruct (ComputeGameResult (History_Append history mv'));
      rewrite Hm in *; simpl in Hlt; done. }
  assert (min_element final = k) as Hidx.
  { destruct (Nat.lt_total (min_element final) k) as [Hlt|[Heq|Hgt]];
      [|done|].
    - destruct (Hmates _ r Hr) as (mv' & Hmv' & Hm).
      rewrite move_score_mate, Hr_mate in Hm.
      destruct (Hfirst _ mv' Hlt Hmv') as [E|E]; by rewrite E in Hm.
    - pose proof (Hbefore k fk Hgt Hfk) as Hlt.
      unfold Score.lt in Hlt. rewrite Hfk_mate, Hr_mate in Hlt. done. }
  unfold ValueHead_GetBestMove. fold history. fold moves.
  rewrite evaluate_moves_eq by done. rewrite Hadd. simpl.
  pose proof (assign_from_replicate history moves []) as Hassign.
  simpl in Hassign. rewrite Hassign. fold scores.
  rewrite Hcompute. simpl. fold final. rewrite Hr. simpl.
  rewrite Hidx, Hk. simpl. unfold ValueHead_info. by rewrite Hr_mate.
Qed.

End MoreValueHead.

Section MoreLifecycle.
Context `{!Chess, !CMath}.
Variable GetBestMove : GameState → option (Move * list Output).

Lemma run_calls_compose l1 : ∀ l2 this mid this' o1 o2,
  run_calls GetBestMove this l1 = Some (mid, o1) →
  run_calls GetBestMove mid l2 = Some (this', o2) →
  run_calls GetBestMove this (l1 ++ l2) = Some (this', o1 ++ o2).
Proof.
  induction l1 as [|c l1 IH]; intros l2 this mid this' o1 o2 H1 H2.
  - by simplify_eq/=.
  - simpl in *.
    destruct (run_call GetBestMove this c) as [[this1 out]|]; simplify_eq/=.
    destruct (run_calls GetBestMove this1 l1) as [[mid' outs]|] eqn:Hrest;
      simplify_eq/=.
    by rewrite (IH l2 this1 mid this' outs o2 Hrest H2).
Qed.

Lemma run_calls_SetPosition gss : ∀ this,
  run_calls GetBestMove this (CallSetPosition <$> gss) =
    Some ({| bestmove_ := bestmove_ this;
             responded_bestmove_ := responded_bestmove_ this;
             game_state_ := default (game_state_ this) (list.last gss) |},
          replicate (length gss) []).
Proof.
  induction gss as [|gs gss IH]; intros this.
  - by destruct this.
  - simpl. rewrite IH. simpl. do 3 f_equal.
    rewrite last_cons. by destruct (list.last gss).
Qed.

(** A search started with [infinite] or [ponder] set picks its move and
    keeps it back.  Positions set afterwards replace the game state but
    not the move; the first [StopSearch] then sends the one report, with
    the move the search picked, mirrored when black is to move in the game
    state held at the time of the stop.  A second [StopSearch] sends
    nothing. *)
Theorem StopSearch_reports_kept_move (this : InstamoveSearch) (go : GoParams)
    (gss : list GameState) (mv : Move) (out : list Output) :
  GetBestMove (game_state_ this) = Some (mv, out) →
  go_infinite go || go_ponder go = true →
  let game_state := default (game_state_ this) (list.last gss) in
  let info :=
    if IsBlackToMove (CurrentPosition game_state)
    then {| bestmove := Flip mv; ponder := Move_default |}
    else {| bestmove := mv;
            ponder := if is_null Move_default then Move_default
                      else Flip Move_default |} in
  run_calls GetBestMove this
    (CallStartSearch go :: (CallSetPosition <$> gss)
       ++ [CallStopSearch; CallStopSearch]) =
    Some ({| bestmove_ := mv; responded_bestmove_ := true;
             game_state_ := game_state |},
          out :: replicate (length gss) []
            ++ [[OutputBestMove info]; []]).
Proof.
  intros Hbest Hgo game_state info.
  cbn [run_calls run_call]. unfold StartSearch. simpl. rewrite Hbest. simpl.
  assert (negb (go_infinite go) && negb (go_ponder go) = false) as ->
    by (by destruct (go_infinite go), (go_ponder go)).
  simpl.
  set (started :=
         set_bestmove_ mv (set_responded_bestmove_ false this)).
  set (moved :=
         {| bestmove_ := mv; responded_bestmove_ := false;
            game_state_ := game_state |}).
  erewrite (run_calls_compose _ _ started moved); simpl; [done| |].
  - by rewrite run_calls_SetPosition.
  - unfold info. destruct (IsBlackToMove _); [done|].
    by destruct (is_null Move_default).
Qed.

(** [WaitSearch] polls the flag and nothing else.  While no other thread
    runs, it returns at the first look when the call before it was
    [StopSearch], [AbortSearch] or a [StartSearch] with neither [infinite]
    nor [ponder] set; after a [StartSearch] with one of them set it never
    returns, however often it polls; [SetPosition] leaves it as it was. *)
Theorem WaitSearch_after_call (this : InstamoveSearch) (c : Call)
    (this' : InstamoveSearch) (out : list Output) :
  run_call GetBestMove this c = Some (this', out) →
  let returns :=
    match c with
    | CallSetPosition _ => responded_bestmove_ this
    | CallStartSearch go => negb (go_infinite go) && negb (go_ponder go)
    | CallStopSearch | CallAbortSearch => true
    end in
  responded_bestmove_ this' = returns ∧
  ∀ polls,
    WaitSearch (S polls) this' = (if returns then Some tt else None) ∧
    WaitSearch 0 this' = None.
Proof.
  intros Hrun returns.
  assert (responded_bestmove_ this' = returns) as Hflag.
  { unfold returns. destruct c as [gs|go| |]; simpl in Hrun.
    - by simplify_eq/=.
    - unfold StartSearch in Hrun. simpl in Hrun.
      destruct (GetBestMove (game_state_ this)) as [[mv o]|]; simplify_eq/=.
      destruct (negb (go_infinite go) && negb (go_ponder go));
        by simplify_eq/=.
    - unfold StopSearch, RespondBestMove, exchange_responded in Hrun.
      simpl in Hrun. destruct (responded_bestmove_ this); by simplify_eq/=.
    - unfold AbortSearch in Hrun. by simplify_eq/=. }
  split; [done|]. intros polls. split; [|done].
  clear Hrun. revert Hflag. generalize returns. clear returns.
  intros returns Hflag.
  induction polls as [|polls IH].
  - simpl. rewrite Hflag. by destruct returns.
  - cbn [WaitSearch] in *. rewrite Hflag in *. by destruct returns.
Qed.

End MoreLifecycle.

(** ** Threads that all report *)

Lemma race_idle_pending (l : list Race.pc) :
  Forall (λ t, t = Race.at_exchange) l →
  sum_list_with Race.output_due l = 0%nat.
Proof. induction 1 as [|t l -> _ IH]; [done|]. simpl. by rewrite IH. Qed.

Lemma race_step_reporting s s' :
  Race.step s s' → race_reporting s → race_reporting s'.
Proof.
  intros Hstep (Hno_store & Hclear & Hset).
  destruct Hstep as [s i Hi|s i Hi|s i Hi].
  - split; [|split]; simpl.
    + apply Forall_insert; [done|]. by destruct (Race.flag s).
    + done.
    + intros _. unfold Race.pending. simpl.
      destruct (Race.flag s) eqn:Hflag.
      * specialize (Hset eq_refl). unfold Race.pending in Hset.
        pose proof (due_insert _ i _ Race.finished Hi) as Hdue.
        simpl in Hdue. lia.
      * destruct (Hclear eq_refl) as [Hidle Hnone].
        pose proof (race_idle_pending _ Hidle) as Hpending.
        pose proof (due_insert _ i _ Race.at_output Hi) as Hdue.
        simpl in Hdue. lia.
  - destruct (Race.flag s) eqn:Hflag.
    + split; [|split]; simpl.
      * by apply Forall_insert.
      * done.
      * intros _. specialize (Hset eq_refl). unfold Race.pending in *.
        simpl. pose proof (due_insert _ i _ Race.finished Hi) as Hdue.
        simpl in Hdue. lia.
    + destruct (Hclear eq_refl) as [Hidle _].
      pose proof (proj1 (Forall_lookup _ _) Hidle i _ Hi). done.
  - by pose proof (proj1 (Forall_lookup _ _) Hno_store i _ Hi).
Qed.

Lemma race_reporting_run s s' :
  rtc Race.step s s' → race_reporting s →
  race_reporting s' ∧
  length (Race.threads s') = length (Race.threads s).
Proof.
  induction 1 as [s|s mid s' Hstep _ IH]; intros Hinv; [done|].
  destruct (IH (race_step_reporting _ _ Hstep Hinv)) as [Hinv' Hlen].
  split; [done|]. rewrite Hlen.
  destruct Hstep; simpl; apply length_insert.
Qed.

(** When every thread runs [RespondBestMove] and the flag is clear at the
    outset, then however the threads are interleaved, never more than one
    report has been sent, and once all threads are through exactly one
    has. *)
Theorem race_exactly_one (n : nat) (s' : Race.state) :
  (0 < n)%nat →
  rtc Race.step
      {| Race.flag := false;
         Race.threads := replicate n Race.at_exchange;
         Race.emitted := 0 |} s' →
  (Race.emitted s' ≤ 1)%nat ∧
  (Forall (λ t, t = Race.finished) (Race.threads s') →
   Race.emitted s' = 1%nat).
Proof.
  intros Hn Hrun.
  apply race_reporting_run in Hrun as [(_ & Hclear & Hset) Hlen].
  2:{ split; [|split]; simpl; [| |done].
      - by apply Forall_replicate.
      - intros _. split; [|done]. by apply Forall_replicate. }
  simpl in Hlen. rewrite length_replicate in Hlen.
  split.
  - destruct (Race.flag s') eqn:Hflag.
    + specialize (Hset eq_refl). lia.
    + destruct (Hclear eq_refl) as [_ ->]. lia.
  - intros Hdone.
    destruct (Race.flag s') eqn:Hflag.
    + specialize (Hset eq_refl).
      assert (Race.pending s' = 0%nat) as Hpending.
      { unfold Race.pending. clear -Hdone.
        induction Hdone as [|t l -> _ IH]; [done|]. simpl. done. }
      lia.
    + destruct (Hclear eq_refl) as [Hidle _].
      destruct (Race.threads s') as [|t l]; [simpl in Hlen; lia|].
      apply Forall_cons_1 in Hidle as [-> _].
      by apply Forall_cons_1 in Hdone as [? _].
Qed.

(** * The properties on the sample instance *)

#[local] Existing Instances
  Sample.chess Sample.encoder Sample.fastmath Sample.cmath.

Lemma RespondBestMove_mirroring_witness :
  ∃ info,
    RespondBestMove Sample.black_search =
      (set_responded_bestmove_ true Sample.black_search,
       [OutputBestMove info]) ∧
    bestmove info = Flip Sample.e2e4 ∧ ponder info = Move_default.
Proof.
  destruct (RespondBestMove_mirroring Sample.black_search eq_refl)
    as (info & Hrun & Hblack & _).
  exists info. split; [exact Hrun|]. apply Hblack. reflexivity.
Defined.

(** With white to move neither move of the report is mirrored: the primary
    move is [bestmove_] as it is, e2e4 and not its mirror image e7e5, and
    the ponder move is the null move it was initialised to. *)
Lemma RespondBestMove_white_unmirrored :
  IsBlackToMove (CurrentPosition (game_state_ Sample.white_search)) = false ∧
  RespondBestMove Sample.white_search =
    (set_responded_bestmove_ true Sample.white_search,
     [OutputBestMove {| bestmove := Sample.e2e4; ponder := (0, 0)%Z |}]) ∧
  bestmove_ Sample.white_search = Sample.e2e4 ∧
  Flip Sample.e2e4 = (52, 36)%Z ∧
  Flip Sample.e2e4 ≠ Sample.e2e4 ∧
  is_null (0, 0)%Z = true.
Proof.
  repeat split; try reflexivity. discriminate.
Qed.

Lemma at_most_one_report_witness :
  ∃ this' outs,
    run_calls (PolicyHead_GetBestMove Sample.graded_batch) Sample.white_search
      [CallStartSearch Sample.go; CallStopSearch; CallStopSearch]
      = Some (this', outs) ∧
    (reports outs ≤ 1)%nat.
Proof.
  destruct (at_most_one_report
              (PolicyHead_GetBestMove Sample.graded_batch)
              (PolicyHead_quiet Sample.graded_batch))
    as (Hsearch & _).
  eexists _, _. split; [reflexivity|].
  eapply (Hsearch Sample.white_search [] Sample.go
            [CallStopSearch; CallStopSearch]).
  - repeat constructor.
  - reflexivity.
Defined.


Lemma Sample_Pop_Append (h : PositionHistory) (mv : Move) :
  History_Pop (History_Append h mv) = h.
Proof.
  simpl. rewrite length_app. simpl.
  replace (length h + 1 - 1)%nat with (length h) by lia.
  apply take_app_length.
Qed.


Lemma Sample_computation_ok i (e : Entry nat) :
  items (entries_ Sample.computation) !! i = Some e →
  policy_span_ok (entry_legal_moves e) (p (result e)).
Proof.
  destruct i as [|i]; intros He; simplify_eq/=.
  right. split; [|reflexivity].
  apply (bool_decide_unpack _). vm_compute. reflexivity.
Qed.



(** ** The further properties on the sample instance *)

Lemma Sample_FastExp_nonneg (x : Q) : x <= 0 → 0 <= FastExp x.
Proof.
  intros Hx. simpl. apply Qle_bool_iff in Hx as Hb. rewrite Hb.
  unfold Qdiv. rewrite Qmult_1_l. apply Qinv_le_0_compat. lra.
Qed.

Lemma Sample_FastExp_zero (x : Q) : x == 0 → FastExp x == 1.
Proof.
  intros Hx. simpl.
  assert (Qle_bool x 0 = true) as -> by (apply Qle_bool_iff; lra).
  rewrite Hx. reflexivity.
Qed.

Lemma Sample_FastExp_mono (x y : Q) : x <= y → FastExp x <= FastExp y.
Proof.
  intros Hxy. simpl.
  destruct (Qle_bool x 0) eqn:Ex, (Qle_bool y 0) eqn:Ey.
  - apply Qle_bool_iff in Ex, Ey.
    apply Qle_shift_div_r; [lra|].
    assert (1 / (1 - y) * (1 - x) == (1 - x) / (1 - y)) as ->
      by (field; lra).
    apply Qle_shift_div_l; lra.
  - apply Qle_bool_iff in Ex.
    assert (¬ y <= 0) as Hy by (rewrite <- Qle_bool_iff; congruence).
    apply Qle_shift_div_r; [lra|]. nra.
  - apply Qle_bool_iff in Ey.
    assert (¬ x <= 0) as Hx by (rewrite <- Qle_bool_iff; congruence).
    lra.
  - lra.
Qed.

Lemma Sample_FastExp_proper (x y : Q) : x == y → FastExp x == FastExp y.
Proof.
  intros Hxy. simpl.
  assert (Qle_bool x 0 = Qle_bool y 0) as ->.
  { destruct (Qle_bool y 0) eqn:Ey.
    - apply Qle_bool_iff. apply Qle_bool_iff in Ey. lra.
    - destruct (Qle_bool x 0) eqn:Ex; [|done].
      apply Qle_bool_iff in Ex.
      assert (Qle_bool y 0 = true) by (apply Qle_bool_iff; lra).
      congruence. }
  destruct (Qle_bool y 0); by rewrite Hxy.
Qed.

Lemma Sample_configured : configured false Sample.backend.
Proof.
  by apply (configured_new false Sample.storage Sample.network
              Sample.options).
Qed.

Lemma NetworkAsBackend_new_initialises_witness :
  NetworkAsBackend_new false Sample.storage Sample.network Sample.options =
    NetworkAsBackend_new false Sample.stale Sample.network Sample.options ∧
  softmax_policy_temperature_ Sample.backend = 1 / 2.
Proof.
  destruct (NetworkAsBackend_new_initialises false Sample.storage
              Sample.stale Sample.network Sample.options) as [Hsame Hfields].
  split; [exact Hsame|].
  destruct (Hfields Sample.backend) as (_ & _ & Htemp & _);
    [reflexivity|exact Htemp].
Defined.

Lemma UpdateConfiguration_idempotent_witness :
  UpdateConfiguration false Sample.backend Sample.options =
    Some (Sample.backend, UPDATE_OK) ∧
  UpdateConfiguration false Sample.backend Sample.other_weights =
    Some (Sample.backend, NEED_RESTART).
Proof.
  destruct (UpdateConfiguration_idempotent false) as [Hagain Hbuilt].
  split.
  - apply (Hbuilt Sample.storage Sample.network). reflexivity.
  - apply (Hagain Sample.backend). reflexivity.
Defined.

Lemma UpdateConfiguration_last_wins_witness :
  UpdateConfiguration false Sample.backend Sample.options =
    Some (Sample.backend, UPDATE_OK).
Proof.
  apply (UpdateConfiguration_last_wins false Sample.backend Sample.cooler
           (reconfigured Sample.backend Sample.cooler ALWAYS));
    reflexivity.
Defined.

Lemma UpdateConfigurations_keep_identity_witness :
  network_ (reconfigured Sample.backend Sample.cooler ALWAYS)
    = Sample.network ∧
  GetAttributes (reconfigured Sample.backend Sample.cooler ALWAYS)
    = GetAttributes Sample.backend.
Proof.
  destruct (UpdateConfigurations_keep_identity false Sample.backend
              [Sample.options; Sample.other_weights; Sample.cooler]
              (reconfigured Sample.backend Sample.cooler ALWAYS))
    as (Hnet & Hattrs & _); [reflexivity|].
  split; [exact Hnet|exact Hattrs].
Defined.

Lemma AddInput_appends_witness :
  ∃ this',
    AddInput Sample.backend Sample.computation
             (fst Sample.value_request) (snd Sample.value_request)
      = Some (this', ENQUEUED_FOR_EVAL) ∧
    UsedBatchSize this' = 2%nat.
Proof.
  destruct (AddInput_appends Sample.backend Sample.computation
              (fst Sample.value_request) (snd Sample.value_request))
    as [Hroom _].
  destruct Hroom as (this' & Hrun & Hsize & _).
  - apply Nat.ltb_lt. vm_compute. reflexivity.
  - exists this'. split; [exact Hrun|exact Hsize].
Defined.

Lemma AddInputs_capacity_witness :
  ∃ this,
    AddInputs Sample.backend (CreateComputation Sample.backend)
              Sample.requests = Some this ∧
    UsedBatchSize this = 2%nat.
Proof.
  destruct (AddInputs_capacity false Sample.backend Sample.requests
              Sample_configured) as [Hfits _].
  apply Hfits. apply Nat.leb_le. vm_compute. reflexivity.
Defined.



Lemma ComputeBlocking_results_witness :
  ∃ this' h' log,
    ComputeBlocking Sample.backend Sample.computation Sample.memory =
      Some (this', h', log) ∧
    h' 1%nat = (1 # 4) ∧
    sumQ (h' <$> [10; 11; 12]%nat) == 1.
Proof.
  destruct (ComputeBlocking_results Sample.backend Sample.computation
              Sample.memory Sample_computation_ok)
    as (this' & h' & log & Hrun & _ & Hslots).
  { apply (bool_decide_unpack _). vm_compute. reflexivity. }
  destruct (Hslots 0%nat (entry_of Sample.backend Sample.policy_request)
              eq_refl) as (_ & Hd & _ & Hp).
  exists this', h', log. split; [exact Hrun|]. split.
  - apply (Hd 1%nat). reflexivity.
  - change (h' <$> [10; 11; 12]%nat =
            normalised (1 / 2)
              (raw_scores Sample.network (computation_ this') 0
                 (entry_of Sample.backend Sample.policy_request))) in Hp.
    rewrite Hp. vm_compute. reflexivity.
Defined.


Lemma SoftmaxPolicy_monotone_witness :
  ∃ h',
    SoftmaxPolicy Sample.backend Sample.computation [10; 11; 12]%nat [] 0
                  Sample.memory = Some h' ∧
    h' 12%nat <= h' 10%nat.
Proof.
  destruct (SoftmaxPolicy_monotone Sample.backend Sample.computation
              [10; 11; 12]%nat [] 0
              (entry_of Sample.backend Sample.policy_request) Sample.memory)
    as (h' & Hrun & Horder).
  - reflexivity.
  - discriminate.
  - apply (bool_decide_unpack _). vm_compute. reflexivity.
  - reflexivity.
  - apply Qle_bool_iff. vm_compute. reflexivity.
  - exact Sample_FastExp_mono.
  - exists h'. split; [exact Hrun|].
    apply (Horder 2%nat 0%nat Sample.g1f3 Sample.e2e4); try reflexivity.
    apply Qle_bool_iff. vm_compute. reflexivity.
Defined.


Lemma SoftmaxPolicy_shift_witness :
  ∃ h1 h2,
    SoftmaxPolicy Sample.backend Sample.computation [10; 11; 12]%nat [] 0
                  Sample.memory = Some h1 ∧
    SoftmaxPolicy (Sample.on_network Sample.raised_network)
                  Sample.computation [10; 11; 12]%nat [] 0
                  Sample.memory = Some h2 ∧
    h2 10%nat == h1 10%nat.
Proof.
  destruct (SoftmaxPolicy_shift Sample.backend
              (Sample.on_network Sample.raised_network)
              Sample.computation [10; 11; 12]%nat [] 0
              (entry_of Sample.backend Sample.policy_request) Sample.memory
              1)
    as (h1 & h2 & Hrun1 & Hrun2 & Hsame).
  - reflexivity.
  - discriminate.
  - apply (bool_decide_unpack _). vm_compute. reflexivity.
  - reflexivity.
  - reflexivity.
  - exact Sample_FastExp_proper.
  - intros k. reflexivity.
  - exists h1, h2. split; [exact Hrun1|]. split; [exact Hrun2|].
    by apply Forall2_cons_1 in Hsame as [Hfirst _].
Defined.

Lemma PolicyHead_no_legal_move_witness :
  PolicyHead_GetBestMove Sample.graded_batch
    [Sample.middlegame; Sample.mated] = None.
Proof.
  apply (PolicyHead_no_legal_move Sample.graded_batch
           [Sample.middlegame; Sample.mated] Sample.mated); reflexivity.
Defined.

Lemma ValueHead_no_legal_move_witness :
  @ValueHead_GetBestMove _ _ (NetworkAsBackend_Backend Sample.backend)
     [Sample.middlegame; Sample.mated] = None.
Proof.
  apply (@ValueHead_no_legal_move _ _
           (NetworkAsBackend_Backend Sample.backend)). reflexivity.
Defined.

Lemma ValueHead_plays_mate_witness :
  @ValueHead_GetBestMove _ _ (NetworkAsBackend_Backend Sample.backend)
     [Sample.middlegame] =
    Some (Sample.g1f3,
          [OutputThinkingInfo
             [{| ThinkingInfo.depth := 1;
                 ThinkingInfo.seldepth := 1;
                 ThinkingInfo.nodes := 3;
                 ThinkingInfo.mate := Some 1%Z;
                 ThinkingInfo.score := None;
                 ThinkingInfo.wdl := None |}]]).
Proof.
  eapply (@ValueHead_plays_mate _ _
            (NetworkAsBackend_Backend Sample.backend)
            Sample_Pop_Append [Sample.middlegame] _ _ 2%nat Sample.g1f3).
  - reflexivity.
  - discriminate.
  - discriminate.
  - intros j mv' Hj Hmv'.
    destruct j as [|[|j]]; [left|right|lia]; by simplify_eq/=.
  - reflexivity.
  - reflexivity.
Defined.

Lemma StopSearch_reports_kept_move_witness :
  run_calls (PolicyHead_GetBestMove Sample.graded_batch) Sample.white_search
    [CallStartSearch Sample.go_infinite_;
     CallSetPosition [Sample.middlegame_black];
     CallStopSearch; CallStopSearch] =
    Some ({| bestmove_ := Sample.d2d4; responded_bestmove_ := true;
             game_state_ := [Sample.middlegame_black] |},
          [[OutputThinkingInfo
              [PolicyHead_info
                 {| res_q := 1 # 4; res_d := 1 # 2; res_m := 30;
                    res_p := [0 / 3; 1 / 3; 1 / 3] |}]];
           [];
           [OutputBestMove
              {| bestmove := Flip Sample.d2d4; ponder := Move_default |}];
           []]).
Proof.
  apply (StopSearch_reports_kept_move
           (PolicyHead_GetBestMove Sample.graded_batch) Sample.white_search
           Sample.go_infinite_ [[Sample.middlegame_black]]);
    reflexivity.
Defined.

Lemma WaitSearch_after_call_witness :
  WaitSearch 1 (set_responded_bestmove_ true Sample.white_search)
    = Some tt ∧
  WaitSearch 5 (SetPosition Sample.white_search [Sample.middlegame_black])
    = None.
Proof.
  split.
  - destruct (WaitSearch_after_call
                (PolicyHead_GetBestMove Sample.graded_batch)
                Sample.white_search CallAbortSearch _ [] eq_refl)
      as [_ Hwait].
    exact (proj1 (Hwait 0%nat)).
  - destruct (WaitSearch_after_call
                (PolicyHead_GetBestMove Sample.graded_batch)
                Sample.white_search
                (CallSetPosition
                   ([Sample.middlegame_black] : @GameState Sample.chess))
                _ [] eq_refl)
      as [_ Hwait].
    exact (proj1 (Hwait 4%nat)).
Defined.

Lemma Sample_race_run : rtc Race.step Sample.two_reporters Sample.both_through.
Proof.
  eapply rtc_l; [exact (Race.step_exchange Sample.two_reporters 0 eq_refl)|].
  simpl.
  eapply rtc_l; [apply (Race.step_output _ 0); reflexivity|]. simpl.
  eapply rtc_l; [apply (Race.step_exchange _ 1); reflexivity|]. simpl.
  apply rtc_refl.
Qed.

Lemma race_exactly_one_witness :
  Race.emitted Sample.both_through = 1%nat.
Proof.
  apply (race_exactly_one 2 Sample.both_through);
    [lia|exact Sample_race_run|].
  repeat constructor.
Defined.
